(** * Masker: a shallow embedding of the masking engine

    The Go package [masker] redacts string fields of arbitrary nested values
    through reflection.  This development embeds

    - the Go string primitives the built-in strategies use ([len], slicing,
      [strings.Repeat], [strings.Split], [strings.HasPrefix],
      [strings.TrimPrefix]), with their run-time panics;
    - the strategy registry [maskRegistry], its initialisation [init] and
      [RegisterMaskFunc];
    - a store of Go variables and the part of [reflect.Value] that
      [maskValue] relies on (kinds, [Elem], [Field], [Index], [MapIndex],
      [CanSet], [SetString]);
    - [maskValue], [Mask], [MaskWithOverrides] and [MaskCopy].

    Strings are Go strings: sequences of bytes, [len] counts bytes. *)

From Stdlib Require Import Ascii.
From stdpp Require Import base option list gmap strings.

Set Warnings "-register-all".

Local Open Scope Z_scope.

(** ** Outcomes *)

(** A Go call either returns, or panics.  Two further outcomes belong to the
    model only: the traversal ran out of fuel (the value graph is cyclic or
    deeper than the fuel given), or the store is not well formed (a dangling
    address, which Go's memory safety excludes). *)
Inductive failure : Type :=
| GoPanic
| OutOfFuel
| BadStore.

Inductive res (A : Type) : Type :=
| Ok (a : A)
| Err (e : failure).
Arguments Ok {A} a.
Arguments Err {A} e.

Global Instance res_ret : MRet res := λ A a, Ok a.
Global Instance res_bind : MBind res := λ A B f m,
  match m with
  | Ok a => f a
  | Err e => Err e
  end.

(** ** Go strings *)

Module GoString.

(** [len(s)], an [int]. Lengths stay far below 2^63, so [Z] without
    wrap-around is exact for every expression of the source. *)
Definition len (s : string) : Z := Z.of_nat (String.length s).

(** [s[lo:hi]]; out-of-range bounds panic. *)
Definition slice (s : string) (lo hi : Z) : res string :=
  if bool_decide (0 ≤ lo ∧ lo ≤ hi ∧ hi ≤ len s)
  then Ok (String.substring (Z.to_nat lo) (Z.to_nat (hi - lo)) s)
  else Err GoPanic.

Fixpoint replicate_string (n : nat) (s : string) : string :=
  match n with
  | O => ""
  | S n' => s +:+ replicate_string n' s
  end.

(** [strings.Repeat(s, count)]; a negative count panics. *)
Definition Repeat (s : string) (count : Z) : res string :=
  if bool_decide (count < 0) then Err GoPanic
  else Ok (replicate_string (Z.to_nat count) s).

(** [strings.Split(s, sep)] for a one-byte separator, the only form the
    source uses (["@"] and [";"]). *)
Fixpoint Split (s : string) (sep : ascii) : list string :=
  match s with
  | "" => [""]
  | String c s' =>
      if Ascii.eqb c sep then "" :: Split s' sep
      else match Split s' sep with
           | p :: ps => String c p :: ps
           | [] => [String c ""]
           end
  end.

(** [strings.HasPrefix(s, prefix)] *)
Definition HasPrefix (s prefix : string) : bool := String.prefix prefix s.

(** [strings.TrimPrefix(s, prefix)] *)
Definition TrimPrefix (s prefix : string) : string :=
  if HasPrefix s prefix
  then String.substring (String.length prefix)
         (String.length s - String.length prefix)%nat s
  else s.

End GoString.

Import GoString.

(** ** The strategy registry *)

(** [type MaskFunc func(string) string]; [Err GoPanic] when the call panics. *)
Abbreviation MaskFunc := (string → res string).

(** The nil function value; calling it panics. *)
Definition nilFunc : MaskFunc := λ _, Err GoPanic.

Abbreviation Registry := (gmap string MaskFunc).

(** [type MaskOverrides map[string]string]; a nil map reads as the empty one. *)
Abbreviation MaskOverrides := (gmap string string).

(** [maskRegistry[name]] used as an expression: the zero value when absent. *)
Definition registryIndex (r : Registry) (name : string) : MaskFunc :=
  default nilFunc (r !! name).

Definition RegisterMaskFunc (name : string) (fn : MaskFunc) (r : Registry) : Registry :=
  <[name := fn]> r.

(** The function literals of [init], in source order. *)
Definition mask_partial : MaskFunc := λ s,
  if bool_decide (len s > 4) then
    a ← slice s 0 2;
    m ← Repeat "*" (len s - 4);
    b ← slice s (len s - 2) (len s);
    Ok (a +:+ m +:+ b)
  else Repeat "*" (len s).

Definition mask_full : MaskFunc := λ s, Repeat "*" (len s).

Definition mask_email : MaskFunc := λ s,
  match Split s "@"%char with
  | [p0; p1] =>
      a ← slice p0 0 1;
      m ← Repeat "*" (len p0 - 1);
      Ok (a +:+ m +:+ "@" +:+ p1)
  | _ => Repeat "*" (len s)
  end.

Definition mask_phone : MaskFunc := λ s,
  if bool_decide (len s > 4) then
    m ← Repeat "*" (len s - 4);
    b ← slice s (len s - 4) (len s);
    Ok (m +:+ b)
  else Repeat "*" (len s).

Definition mask_creditcard : MaskFunc := λ s,
  if bool_decide (len s > 4) then
    m ← Repeat "*" (len s - 4);
    b ← slice s (len s - 4) (len s);
    Ok (m +:+ b)
  else Repeat "*" (len s).

Definition mask_dob : MaskFunc := λ s,
  if bool_decide (len s = 10) then
    b ← slice s (len s - 2) (len s);
    Ok ("****-**-" +:+ b)
  else Repeat "*" (len s).

Definition mask_password : MaskFunc := λ s, Repeat "*" (len s).
Definition mask_token : MaskFunc := λ s, Repeat "*" (len s).
Definition mask_none : MaskFunc := λ s, Ok s.

(** [func init()]: every statement is an assignment [maskRegistry[k] = e];
    the group entries copy the function value found under the underlying
    name at that moment. *)
Definition init (r : Registry) : Registry :=
  let r := <["partial" := mask_partial]> r in
  let r := <["full" := mask_full]> r in
  let r := <["email" := mask_email]> r in
  let r := <["phone" := mask_phone]> r in
  let r := <["creditcard" := mask_creditcard]> r in
  let r := <["dob" := mask_dob]> r in
  let r := <["password" := mask_password]> r in
  let r := <["token" := mask_token]> r in
  let r := <["PII" := registryIndex r "partial"]> r in
  let r := <["PHI" := registryIndex r "dob"]> r in
  let r := <["PCI" := registryIndex r "creditcard"]> r in
  let r := <["CREDENTIALS" := registryIndex r "full"]> r in
  let r := <["FINANCIAL" := registryIndex r "partial"]> r in
  let r := <["GDPR" := registryIndex r "full"]> r in
  let r := <["none" := mask_none]> r in
  r.

(** [var maskRegistry = map[string]MaskFunc{}], after [init] has run. *)
Definition maskRegistry : Registry := init ∅.

(** Resolving a name and calling the transform found. *)
Definition applyStrategy (r : Registry) (name : string) (s : string) : option (res string) :=
  fn ← r !! name; Some (fn s).

(** ** Go values and the store *)

(** Addresses of Go variables (heap cells). *)
Definition loc : Type := nat.
Bind Scope nat_scope with loc.

(** A position inside a variable: field and element indices, outermost first. *)
Definition path : Type := list nat.

(** What [reflect.StructField] tells [maskValue] about a field: [field.Name],
    [field.Tag.Get("mask")] (empty when the key is absent), and whether the
    field is exported. *)
Record StructField : Type := mkField {
  Name : string;
  maskTag : string;
  exported : bool
}.

(** Go values by [reflect.Kind].  Structs and arrays hold their parts inline;
    pointers and slices refer to variables of the store, so two values may
    share what they point to; a slice is given by its backing array, which
    it covers whole.  A map is never written by this package
    (there is no [SetMapIndex]), so its entries are kept inline; whatever
    the entries point to is shared through the store.  [VScalar] stands for
    every kind [maskValue] has no case for (booleans, numbers, interfaces,
    channels, functions). *)
Inductive gval : Type :=
| VString (s : string)
| VScalar (z : Z)
| VPtr (target : option (loc * path))
| VStruct (fs : list (StructField * gval))
| VArray (es : list gval)
| VSlice (backing : option loc)
| VMap (kvs : list (string * gval)).

Abbreviation heap := (list gval).

(** The part of a variable at a path. *)
Fixpoint sub (v : gval) (p : path) : option gval :=
  match p with
  | [] => Some v
  | i :: p' =>
      match v with
      | VStruct fs => fv ← fs !! i; sub fv.2 p'
      | VArray es => e ← es !! i; sub e p'
      | _ => None
      end
  end.

(** The variable with the part at a path replaced. *)
Fixpoint upd (v : gval) (p : path) (w : gval) : option gval :=
  match p with
  | [] => Some w
  | i :: p' =>
      match v with
      | VStruct fs =>
          fv ← fs !! i; v' ← upd fv.2 p' w;
          Some (VStruct (<[i := (fv.1, v')]> fs))
      | VArray es =>
          e ← es !! i; e' ← upd e p' w;
          Some (VArray (<[i := e']> es))
      | _ => None
      end
  end.

Definition load (h : heap) (l : loc) (p : path) : option gval :=
  c ← h !! l; sub c p.

Definition store (h : heap) (l : loc) (p : path) (w : gval) : option heap :=
  c ← h !! l; c' ← upd c p w; Some (<[l := c']> h).

(** ** reflect.Value *)

(** A [reflect.Value] is the zero Value, a value held by copy (not
    addressable), or a reference to a variable of the store (addressable). *)
Inductive rvalue : Type :=
| RInvalid
| RCopy (v : gval)
| RVar (l : loc) (p : path).

(** [reflect.ValueOf(v)] for an [interface{}] argument; [None] is the nil
    interface. *)
Definition ValueOf (v : option gval) : rvalue :=
  match v with
  | None => RInvalid
  | Some w => RCopy w
  end.

(** The Go value a [reflect.Value] currently denotes. *)
Definition read (h : heap) (rv : rvalue) : res gval :=
  match rv with
  | RInvalid => Err GoPanic
  | RCopy v => Ok v
  | RVar l p =>
      match load h l p with
      | Some v => Ok v
      | None => Err BadStore
      end
  end.

(** [rv.Field(i)] of a struct and [rv.Index(i)] of an array: addressable
    exactly when [rv] is. *)
Definition Field (rv : rvalue) (i : nat) : rvalue :=
  match rv with
  | RVar l p => RVar l (p ++ [i])
  | RCopy v =>
      match sub v [i] with
      | Some w => RCopy w
      | None => RInvalid
      end
  | RInvalid => RInvalid
  end.

(** [rv.IsValid()] *)
Definition IsValid (rv : rvalue) : bool :=
  match rv with
  | RInvalid => false
  | _ => true
  end.

(** [if rv.Kind() == reflect.Ptr && !rv.IsNil() { rv = rv.Elem() }]: the
    variable a non-nil pointer [v] points to, addressable; [rv] itself for
    any other [v]. *)
Definition indirect (rv : rvalue) (v : gval) : rvalue :=
  match v with
  | VPtr (Some (l, p)) => RVar l p
  | _ => rv
  end.

(** [value.CanSet()] for a field [value] described by [field]: addressable
    and not obtained through an unexported field. *)
Definition CanSet (value : rvalue) (field : StructField) : bool :=
  match value with
  | RVar _ _ => exported field
  | _ => false
  end.

Definition isString (v : gval) : bool :=
  match v with
  | VString _ => true
  | _ => false
  end.

(** [value.SetString(s)]: panics unless [value] is settable. *)
Definition SetString (value : rvalue) (s : string) (h : heap) : res heap :=
  match value with
  | RVar l p =>
      match store h l p (VString s) with
      | Some h' => Ok h'
      | None => Err BadStore
      end
  | _ => Err GoPanic
  end.

(** [value.SetString(fn(value.String()))]; on a kind other than String,
    [SetString] panics. *)
Definition applyTo (fn : MaskFunc) (value : rvalue) (h : heap) : res heap :=
  cur ← read h value;
  match cur with
  | VString s => s' ← fn s; SetString value s' h
  | _ => Err GoPanic
  end.

(** A [for] loop whose body updates the store. *)
Fixpoint foldM {A : Type} (body : A → heap → res heap) (l : list A) (h : heap) : res heap :=
  match l with
  | [] => Ok h
  | a :: l' => h' ← body a h; foldM body l' h'
  end.

Fixpoint enumerateFrom {A : Type} (i : nat) (l : list A) : list (nat * A) :=
  match l with
  | [] => []
  | a :: l' => (i, a) :: enumerateFrom (S i) l'
  end.

(** ** maskValue *)

Section Engine.

(** The global [maskRegistry] as it stands during the call. *)
Variable reg : Registry.

(** The body of [for _, part := range parts]. *)
Definition tagPart (value : rvalue) (part : string) (h : heap) : res heap :=
  if HasPrefix part "strategy:" then
    let strat := TrimPrefix part "strategy:" in
    match reg !! strat with
    | Some fn => applyTo fn value h
    | None => Ok h
    end
  else Ok h.

(** The tag-based default: the [if tag != "" && ...] statement. *)
Definition tagDefault (recurse : rvalue → heap → res heap)
    (field : StructField) (value : rvalue) (cur : gval) (h : heap) : res heap :=
  if bool_decide (maskTag field ≠ "") && isString cur
  then foldM (tagPart value) (Split (maskTag field) ";"%char) h
  else recurse value h.

(** The body of the loop over the fields of a struct. *)
Definition maskField (overrides : MaskOverrides)
    (recurse : rvalue → heap → res heap)
    (rv : rvalue) (fld : nat * StructField) (h : heap) : res heap :=
  let value := Field rv fld.1 in
  let field := fld.2 in
  if negb (CanSet value field) then Ok h
  else
    cur ← read h value;
    match overrides !! Name field with
    | Some strategy =>
        if bool_decide (strategy = "none") then Ok h
        else
          match reg !! strategy with
          | Some fn =>
              if isString cur then applyTo fn value h
              else tagDefault recurse field value cur h
          | None => tagDefault recurse field value cur h
          end
    | None => tagDefault recurse field value cur h
    end.

(** The [switch rv.Kind()] statement, with the recursive calls going
    through [recurse].  Elements of a slice are variables of its backing
    array, addressable whatever the slice itself is; [rv.MapIndex(key)]
    is a copy of the entry, not addressable. *)
Definition maskKind (overrides : MaskOverrides)
    (recurse : rvalue → heap → res heap)
    (rv : rvalue) (v : gval) (h : heap) : res heap :=
  match v with
  | VStruct fs =>
      foldM (maskField overrides recurse rv) (enumerateFrom 0 fs.*1) h
  | VArray es =>
      foldM (λ i, recurse (Field rv i)) (seq 0 (length es)) h
  | VSlice None => Ok h
  | VSlice (Some l) =>
      b ← read h (RVar l []);
      match b with
      | VArray es => foldM (λ i, recurse (RVar l [i])) (seq 0 (length es)) h
      | _ => Err BadStore
      end
  | VMap kvs => foldM (λ kv, recurse (RCopy kv.2)) kvs h
  | _ => Ok h
  end.

(** [func maskValue(rv reflect.Value, overrides MaskOverrides)].  The
    graph of a Go value may be cyclic, in which case the Go function does
    not return; [fuel] bounds the depth of the recursion. *)
Fixpoint maskValue (fuel : nat) (overrides : MaskOverrides)
    (rv : rvalue) (h : heap) : res heap :=
  match fuel with
  | O => Err OutOfFuel
  | S n =>
      if negb (IsValid rv) then Ok h
      else
        v ← read h rv;
        let rv := indirect rv v in
        v ← read h rv;
        maskKind overrides (maskValue n overrides) rv v h
  end.

(** [func Mask(v interface{})] *)
Definition Mask (fuel : nat) (v : option gval) (h : heap) : res heap :=
  maskValue fuel ∅ (ValueOf v) h.

(** [func MaskWithOverrides(v interface{}, overrides MaskOverrides)] *)
Definition MaskWithOverrides (fuel : nat) (v : option gval)
    (overrides : MaskOverrides) (h : heap) : res heap :=
  maskValue fuel overrides (ValueOf v) h.

(** [func MaskCopy(v interface{}, overrides MaskOverrides) interface{}]:
    [reflect.New] allocates a fresh variable, [Set] copies the pointee
    into it (one level: pointers and slices inside keep their targets). *)
Definition MaskCopy (fuel : nat) (v : option gval)
    (overrides : MaskOverrides) (h : heap) : res (option gval * heap) :=
  match v with
  | Some (VPtr (Some (l, p))) =>
      match load h l p with
      | Some c =>
          let copyVal := VPtr (Some (length h, [])) in
          h' ← maskValue fuel overrides (RCopy copyVal) (h ++ [c]);
          Ok (Some copyVal, h')
      | None => Err BadStore
      end
  | _ => Ok (v, h)
  end.

End Engine.

(** ** The rules of the strategy table, as the specification words them *)

Module Rules.

(** [n] asterisks. *)
Fixpoint stars (n : nat) : string :=
  match n with
  | O => ""
  | S n' => String "*" (stars n')
  end.

(** The first [k] characters of [s]. *)
Fixpoint firstChars (k : nat) (s : string) : string :=
  match k, s with
  | S k', String c s' => String c (firstChars k' s')
  | _, _ => ""
  end.

(** [s] without its first [k] characters. *)
Fixpoint dropChars (k : nat) (s : string) : string :=
  match k, s with
  | S k', String _ s' => dropChars k' s'
  | _, _ => s
  end.

(** The last [k] characters of [s]. *)
Definition lastChars (k : nat) (s : string) : string :=
  dropChars (String.length s - k) s.

(** full, password, token: all characters replaced by [*]. *)
Definition rule_full (s : string) : string := stars (String.length s).

(** partial: if [n > 4], first 2 chars, [n-4] stars, last 2 chars; else
    all stars. *)
Definition rule_partial (s : string) : string :=
  let n := String.length s in
  if (4 <? n)%nat
  then firstChars 2 s +:+ stars (n - 4) +:+ lastChars 2 s
  else stars n.

(** phone, creditcard: if [n > 4], [n-4] stars and the last 4 chars; else
    all stars. *)
Definition rule_last4 (s : string) : string :=
  let n := String.length s in
  if (4 <? n)%nat
  then stars (n - 4) +:+ lastChars 4 s
  else stars n.

(** dob: if [n = 10], ["****-**-"] and the last 2 chars; else all stars. *)
Definition rule_dob (s : string) : string :=
  let n := String.length s in
  if (n =? 10)%nat
  then "****-**-" +:+ lastChars 2 s
  else stars n.

(** The table, by strategy name (email is not part of it here). *)
Definition table : list (string * (string → string)) :=
  [("full", rule_full); ("password", rule_full); ("token", rule_full);
   ("partial", rule_partial);
   ("phone", rule_last4); ("creditcard", rule_last4);
   ("dob", rule_dob);
   ("none", λ s, s)].

(** The strategies whose output is as long as the input. *)
Definition lengthPreserving : list string :=
  ["partial"; "phone"; "creditcard"; "full"; "dob"; "password"; "token"].

(** The group aliases with the strategy each stands for. *)
Definition groupAliases : list (string * string) :=
  [("PII", "partial"); ("PHI", "dob"); ("PCI", "creditcard");
   ("CREDENTIALS", "full"); ("FINANCIAL", "partial"); ("GDPR", "full")].

(** The transforms a tag names, in segment order: one for every
    [strategy:<name>] segment whose name is registered. *)
Definition segmentTransform (reg : Registry) (part : string) : option MaskFunc :=
  if HasPrefix part "strategy:"
  then reg !! TrimPrefix part "strategy:"
  else None.

Definition tagTransforms (reg : Registry) (tag : string) : list MaskFunc :=
  omap (segmentTransform reg) (Split tag ";"%char).

(** Left-to-right composition: the first transform is applied first. *)
Fixpoint composeAll (fns : list MaskFunc) (s : string) : res string :=
  match fns with
  | [] => Ok s
  | fn :: fns' => s1 ← fn s; composeAll fns' s1
  end.

End Rules.

Import Rules.

(** A run of later registrations, oldest first. *)
Definition registerAll (regs : list (string * MaskFunc)) (r : Registry) : Registry :=
  foldl (λ acc nf, RegisterMaskFunc nf.1 nf.2 acc) r regs.

(** ** The context-scoped entry point *)

(** The mask policy of a call: the override set and the disable flag. *)
Record MaskPolicy : Type := mkPolicy {
  policyOverrides : MaskOverrides;
  disableMasking : bool
}.

(** The ambient carrier: what [ctx.Value("maskOverrides")] and
    [ctx.Value("disableMasking")] hold, when set. *)
Record Context : Type := mkContext {
  ctxOverrides : option MaskOverrides;
  ctxDisableMasking : option bool
}.

(** The policy a carrier holds; an absent key reads as no overrides, masking
    enabled. *)
Definition policyOf (ctx : Context) : MaskPolicy :=
  mkPolicy (default ∅ (ctxOverrides ctx)) (default false (ctxDisableMasking ctx)).

(** Modelled from the spec: the body of [MaskWithContext] is not among the
    sources at hand.  Specification 4.3: with the disable flag set the
    entire call is a no-op and recursion does not begin; otherwise the
    engine runs with the override set of the policy. *)
Definition MaskWithPolicy (reg : Registry) (fuel : nat) (v : option gval)
    (policy : MaskPolicy) (h : heap) : res heap :=
  if disableMasking policy then Ok h
  else MaskWithOverrides reg fuel v (policyOverrides policy) h.

(** Modelled from the spec: the context-scoped variant reads the policy from
    the carrier and must give the result of passing the same values
    explicitly. *)
Definition MaskWithContext (reg : Registry) (fuel : nat) (v : option gval)
    (ctx : Context) (h : heap) : res heap :=
  MaskWithPolicy reg fuel v (policyOf ctx) h.

(** ** What an override entry decides *)

(** The outcome of the run-time override block of [maskValue] for a field
    name: [Some None] to skip the field (sentinel ["none"]), [Some (Some
    fn)] to apply [fn] when the field is a string, [None] to go on to the
    tag-based default (no entry, or an entry naming no registered
    strategy). *)
Definition overrideDecision (reg : Registry) (overrides : MaskOverrides)
    (name : string) : option (option MaskFunc) :=
  match overrides !! name with
  | Some strategy =>
      if bool_decide (strategy = "none") then Some None
      else Some <$> reg !! strategy
  | None => None
  end.

(** ** Field names of a value graph *)

(** Some struct field of the variable [v] is named [N], at any depth of
    inline nesting (fields of struct-typed fields, elements of arrays).
    What pointers and slices refer to are other variables of the store;
    the entries of a map are copies whose fields are never settable. *)
Fixpoint mentions (N : string) (v : gval) : bool :=
  match v with
  | VStruct fs =>
      existsb (λ fv, bool_decide (Name fv.1 = N) || mentions N fv.2) fs
  | VArray es => existsb (mentions N) es
  | _ => false
  end.

(** No variable of the store has a field named [N]. *)
Definition nofield (N : string) (h : heap) : Prop :=
  Forall (λ v, mentions N v = false) h.

(** Two override sets may decide differently for [N] without it showing:
    either they decide alike for [N] too, or no variable has a field named
    [N]. *)
Definition differenceHarmless (reg : Registry) (ov ov' : MaskOverrides)
    (N : string) (h : heap) : Prop :=
  overrideDecision reg ov N = overrideDecision reg ov' N ∨ nofield N h.

(** ** Sample values *)

Module Samples.

Definition exportedField (name tag : string) : StructField :=
  mkField name tag true.

(** [&x] for the variable at address [l]. *)
Definition addr (l : loc) : gval := VPtr (Some (l, [])).

(** [type Account struct { Name string `mask:"strategy:full"` }] *)
Definition account (name : string) : gval :=
  VStruct [(exportedField "Name" "strategy:full", VString name)].

(** [type Inner struct { Secret string `mask:"strategy:full"` }] *)
Definition innerT (secret : string) : gval :=
  VStruct [(exportedField "Secret" "strategy:full", VString secret)].


(** [type Holder struct { M map[string]Inner; D Inner }] *)
Definition holderT (inMap direct : string) : gval :=
  VStruct [(exportedField "M" "", VMap [("k", innerT inMap)]);
           (exportedField "D" "", innerT direct)].

(** [type Index struct { M map[string]*Inner }] *)
Definition indexT (entry : loc) : gval :=
  VStruct [(exportedField "M" "", VMap [("k", addr entry)])].

(** [type Parent struct { Name string `mask:"strategy:full"`; Child *Inner }] *)
Definition parentT (name : string) (child : loc) : gval :=
  VStruct [(exportedField "Name" "strategy:full", VString name);
           (exportedField "Child" "", addr child)].


End Samples.

Import Samples.

(** ** Two sentences of the specification, as worded *)

(** "An override naming an unregistered strategy leaves the field
    unmodified, stop": the field holds after the call what it held before. *)
Definition unregistered_override_leaves_field (reg : Registry) : Prop :=
  ∀ (fuel : nat) (overrides : MaskOverrides) (l : loc)
    (fs : list (StructField * gval)) (i : nat) (field : StructField)
    (s strategy : string) (h h' : heap),
    h !! l = Some (VStruct fs) →
    fs !! i = Some (field, VString s) →
    overrides !! Name field = Some strategy →
    strategy ≠ "none" →
    reg !! strategy = None →
    MaskWithOverrides reg fuel (Some (VPtr (Some (l, [])))) overrides h = Ok h' →
    load h' l [i] = Some (VString s).


(** ** Further string primitives *)

(** The number of bytes of [s] equal to [c]. *)
Fixpoint countByte (c : ascii) (s : string) : nat :=
  match s with
  | "" => O
  | String a s' => ((if Ascii.eqb a c then 1 else 0) + countByte c s')%nat
  end.

(** [strings.Contains(s, substr)] *)
Fixpoint Contains (s substr : string) : bool :=
  if String.prefix substr s then true
  else match s with
       | "" => false
       | String _ s' => Contains s' substr
       end.

(** The names [init] registers a length-guarded or constant-shape rule
    under, the table strategies and the identity. *)
Definition tableNames : list string :=
  ["full"; "password"; "token"; "partial"; "phone"; "creditcard"; "dob"; "none"].

(** ** What masking may rewrite *)

(** [v] with the strings that are directly the value of a struct field
    blanked, except in the fields [keep] holds of; everything else as it
    is. *)
Fixpoint erase (keep : StructField → bool) (v : gval) : gval :=
  match v with
  | VStruct fs =>
      VStruct ((λ '(f, w),
                  (f, match w with
                      | VString s => if keep f then VString s else VString ""
                      | _ => erase keep w
                      end)) <$> fs)
  | VArray es => VArray (erase keep <$> es)
  | _ => v
  end.

(** The value of field [f] inside an erased struct. *)
Definition eraseIn (keep : StructField → bool) (f : StructField) (w : gval) : gval :=
  match w with
  | VString s => if keep f then VString s else VString ""
  | _ => erase keep w
  end.

(** The shape of a variable: its fields with their names and tags, its
    elements, scalars, pointers and maps, without the strings its struct
    fields hold. *)
Definition shape : gval → gval := erase (λ _, false).

(** The description of field [i] of the struct at path [p] of [v]. *)
Definition fieldAt (v : gval) (p : path) (i : nat) : option StructField :=
  match sub v p with
  | Some (VStruct fs) => fst <$> fs !! i
  | _ => None
  end.

Definition fieldOf (h : heap) (l : loc) (p : path) (i : nat) : option StructField :=
  c ← h !! l; fieldAt c p i.

(** The fields [maskValue] does not write under an override set: the
    unexported ones and those with a ["none"] entry. *)
Definition protectedField (overrides : MaskOverrides) (f : StructField) : bool :=
  negb (exported f) || bool_decide (overrides !! Name f = Some "none").

(** ** The tag-only variant (second file of part_000) *)

Module TagOnly.

(** A registered function: a closure that computes on its argument alone,
    or one of the group closures of this variant's [init],
    [func(s string) string { return maskRegistry[name](s) }], which reads
    the registry when it is called. *)
Inductive strategy : Type :=
| Direct (fn : MaskFunc)
| Delegate (name : string).

(** [maskRegistry[name](s)] under the registry [r] of that moment.  A
    chain of group closures is followed for [depth] steps; the nil function
    a missing name yields panics when called. *)
Fixpoint callName (depth : nat) (r : gmap string strategy) (name : string)
    (s : string) : res string :=
  match depth with
  | O => Err OutOfFuel
  | S d =>
      match r !! name with
      | Some (Direct fn) => fn s
      | Some (Delegate name') => callName d r name' s
      | None => Err GoPanic
      end
  end.

(** Calling a registered function. *)
Definition call (depth : nat) (r : gmap string strategy) (f : strategy)
    (s : string) : res string :=
  match f with
  | Direct fn => fn s
  | Delegate name => callName depth r name s
  end.

Definition RegisterMaskFunc (name : string) (fn : strategy)
    (r : gmap string strategy) : gmap string strategy :=
  <[name := fn]> r.

(** [func init()] of this variant: every entry goes through
    [RegisterMaskFunc]. *)
Definition init (r : gmap string strategy) : gmap string strategy :=
  let r := RegisterMaskFunc "partial" (Direct mask_partial) r in
  let r := RegisterMaskFunc "full" (Direct mask_full) r in
  let r := RegisterMaskFunc "email" (Direct mask_email) r in
  let r := RegisterMaskFunc "phone" (Direct mask_phone) r in
  let r := RegisterMaskFunc "creditcard" (Direct mask_creditcard) r in
  let r := RegisterMaskFunc "dob" (Direct mask_dob) r in
  let r := RegisterMaskFunc "password" (Direct mask_password) r in
  let r := RegisterMaskFunc "token" (Direct mask_token) r in
  let r := RegisterMaskFunc "PII" (Delegate "partial") r in
  let r := RegisterMaskFunc "PHI" (Delegate "dob") r in
  let r := RegisterMaskFunc "PCI" (Delegate "creditcard") r in
  let r := RegisterMaskFunc "CREDENTIALS" (Delegate "full") r in
  let r := RegisterMaskFunc "FINANCIAL" (Delegate "partial") r in
  let r := RegisterMaskFunc "GDPR" (Delegate "full") r in
  let r := RegisterMaskFunc "none" (Direct mask_none) r in
  r.

Definition maskRegistry : gmap string strategy := init ∅.

(** What [fn, ok := maskRegistry[name]] followed by [fn(s)] gives during a
    masking call, which does not write the registry. *)
Definition live (depth : nat) (r : gmap string strategy) : Registry :=
  (λ f, call depth r f) <$> r.

(** The body of the loop over the fields: the tag-based block alone. *)
Definition maskField (reg : Registry) (recurse : rvalue → heap → res heap)
    (rv : rvalue) (fld : nat * StructField) (h : heap) : res heap :=
  let value := Field rv fld.1 in
  let field := fld.2 in
  if negb (CanSet value field) then Ok h
  else
    cur ← read h value;
    if bool_decide (maskTag field ≠ "") && isString cur
    then foldM (tagPart reg value) (Split (maskTag field) ";"%char) h
    else recurse value h.

(** [func maskValue(rv reflect.Value)] *)
Fixpoint maskValue (reg : Registry) (fuel : nat) (rv : rvalue) (h : heap)
    : res heap :=
  match fuel with
  | O => Err OutOfFuel
  | S n =>
      if negb (IsValid rv) then Ok h
      else
        v ← read h rv;
        let rv := indirect rv v in
        v ← read h rv;
        match v with
        | VStruct fs =>
            foldM (maskField reg (maskValue reg n) rv) (enumerateFrom 0 fs.*1) h
        | VArray es =>
            foldM (λ i, maskValue reg n (Field rv i)) (seq 0 (length es)) h
        | VSlice None => Ok h
        | VSlice (Some l) =>
            b ← read h (RVar l []);
            match b with
            | VArray es =>
                foldM (λ i, maskValue reg n (RVar l [i])) (seq 0 (length es)) h
            | _ => Err BadStore
            end
        | VMap kvs => foldM (λ kv, maskValue reg n (RCopy kv.2)) kvs h
        | _ => Ok h
        end
  end.

(** [func Mask(v interface{})] under the registry [r]. *)
Definition Mask (r : gmap string strategy) (depth fuel : nat)
    (v : option gval) (h : heap) : res heap :=
  maskValue (live depth r) fuel (ValueOf v) h.

End TagOnly.

(** ** The first draft (masker.go) *)

Module Draft.

(** [rv.Elem()] of a pointer; the zero Value for a nil pointer. *)
Definition Elem (v : gval) : rvalue :=
  match v with
  | VPtr (Some (l, p)) => RVar l p
  | _ => RInvalid
  end.

(** The body of the loop over the fields. *)
Definition maskField (rv : rvalue) (fld : nat * StructField) (h : heap)
    : res heap :=
  let value := Field rv fld.1 in
  let tag := maskTag fld.2 in
  if bool_decide (tag = "") || negb (CanSet value fld.2) then Ok h
  else
    h1 ← (cur ← read h value;
          match cur with
          | VString str =>
              if Contains tag "strategy:partial" then
                if bool_decide (len str > 4) then
                  a ← slice str 0 2;
                  m ← Repeat "*" (len str - 4);
                  b ← slice str (len str - 2) (len str);
                  SetString value (a +:+ m +:+ b) h
                else Ok h
              else Ok h
          | _ => Ok h
          end);
    cur ← read h1 value;
    match cur with
    | VString str =>
        if Contains tag "strategy:full" then
          masked ← Repeat "*" (len str);
          SetString value masked h1
        else Ok h1
    | _ => Ok h1
    end.

(** [func Mask(v interface{})]: [rv.Type()] panics on the zero Value (a nil
    interface, or the [Elem] of a nil pointer) and [rt.NumField()] panics
    on a type that is not a struct. *)
Definition Mask (v : option gval) (h : heap) : res heap :=
  match v with
  | None => Err GoPanic
  | Some w =>
      let rv := match w with
                | VPtr _ => Elem w
                | _ => RCopy w
                end in
      if negb (IsValid rv) then Err GoPanic
      else
        cur ← read h rv;
        match cur with
        | VStruct fs => foldM (maskField rv) (enumerateFrom 0 fs.*1) h
        | _ => Err GoPanic
        end
  end.

(** What the draft makes of a string under a tag: all asterisks when the
    tag contains [strategy:full]; else the partial rule when the tag
    contains [strategy:partial] and the string is longer than 4; else the
    string itself. *)
Definition rule (tag s : string) : string :=
  if Contains tag "strategy:full" then rule_full s
  else if Contains tag "strategy:partial" && (4 <? String.length s)%nat
       then rule_partial s
       else s.

End Draft.

(** * Properties *)

(** ** Outcomes *)

Lemma bind_Ok {A B : Type} (a : A) (k : A → res B) : (Ok a ≫= k) = k a.
Proof. reflexivity. Qed.

Lemma bind_Err {A B : Type} (e : failure) (k : A → res B) :
  (Err e ≫= k) = Err e.
Proof. reflexivity. Qed.

(** ** Strings *)

Section StringFacts.

Lemma app_cons (c : ascii) (a b : string) :
  String c a +:+ b = String c (a +:+ b).
Proof. reflexivity. Qed.

Lemma length_app (a b : string) :
  String.length (a +:+ b) = (String.length a + String.length b)%nat.
Proof.
  induction a as [|c a IH]; [reflexivity|].
  rewrite app_cons. cbn [String.length]. by rewrite IH.
Qed.

Lemma length_stars (n : nat) : String.length (stars n) = n.
Proof. induction n as [|n IH]; [reflexivity|]. cbn. by rewrite IH. Qed.

Lemma replicate_star (n : nat) : replicate_string n "*" = stars n.
Proof. induction n as [|n IH]; [reflexivity|]. cbn. by rewrite IH. Qed.

Lemma length_firstChars (k : nat) (s : string) :
  String.length (firstChars k s) = (k `min` String.length s)%nat.
Proof.
  revert s. induction k as [|k IH]; intros [|c s]; cbn; try reflexivity.
  by rewrite IH.
Qed.

Lemma length_dropChars (k : nat) (s : string) :
  String.length (dropChars k s) = (String.length s - k)%nat.
Proof.
  revert s. induction k as [|k IH]; intros [|c s]; cbn; try reflexivity.
  by rewrite IH.
Qed.

Lemma firstChars_all (k : nat) (s : string) :
  (String.length s ≤ k)%nat → firstChars k s = s.
Proof.
  revert s. induction k as [|k IH]; intros [|c s]; cbn; intros Hk;
    try reflexivity; try lia.
  f_equal. apply IH. lia.
Qed.

Lemma substring_firstChars (n m : nat) (s : string) :
  String.substring n m s = firstChars m (dropChars n s).
Proof.
  revert m s. induction n as [|n IH]; intros m s.
  - cbn [dropChars]. revert s.
    induction m as [|m IHm]; intros [|c s]; cbn; try reflexivity.
    by rewrite IHm.
  - destruct s as [|c s]; cbn.
    + by destruct m.
    + apply IH.
Qed.

Lemma length_lastChars (k : nat) (s : string) :
  (k ≤ String.length s)%nat → String.length (lastChars k s) = k.
Proof. intros Hk. unfold lastChars. rewrite length_dropChars. lia. Qed.

(** [s[:k]] and [s[len(s)-k:]] within bounds. *)
Lemma slice_prefix (s : string) (k : Z) :
  0 ≤ k ≤ len s → slice s 0 k = Ok (firstChars (Z.to_nat k) s).
Proof.
  unfold slice, len. intros Hk.
  rewrite bool_decide_eq_true_2 by lia.
  rewrite substring_firstChars. cbn [Z.to_nat dropChars].
  by rewrite Z.sub_0_r.
Qed.

Lemma slice_suffix (s : string) (k : Z) :
  0 ≤ k ≤ len s → slice s (len s - k) (len s) = Ok (lastChars (Z.to_nat k) s).
Proof.
  unfold slice, len. intros Hk.
  rewrite bool_decide_eq_true_2 by lia.
  rewrite substring_firstChars. unfold lastChars.
  replace (Z.to_nat (Z.of_nat (String.length s) - k))
    with (String.length s - Z.to_nat k)%nat by lia.
  rewrite firstChars_all; [reflexivity|].
  rewrite length_dropChars. lia.
Qed.

Lemma Repeat_stars (n : Z) :
  0 ≤ n → Repeat "*" n = Ok (stars (Z.to_nat n)).
Proof.
  intros Hn. unfold Repeat.
  rewrite bool_decide_eq_false_2 by lia. by rewrite replicate_star.
Qed.

Lemma Repeat_len (s : string) : Repeat "*" (len s) = Ok (rule_full s).
Proof.
  unfold len, rule_full. rewrite Repeat_stars by lia. by rewrite Nat2Z.id.
Qed.

End StringFacts.

(** ** The built-in strategies *)

Section Builtins.

Lemma mask_full_rule (s : string) : mask_full s = Ok (rule_full s).
Proof. apply Repeat_len. Qed.

Lemma mask_partial_rule (s : string) : mask_partial s = Ok (rule_partial s).
Proof.
  unfold mask_partial, rule_partial.
  destruct (Nat.ltb_spec 4 (String.length s)) as [Hn|Hn].
  - rewrite bool_decide_eq_true_2 by (unfold len; lia).
    rewrite (slice_prefix s 2) by (unfold len; lia).
    rewrite (slice_suffix s 2) by (unfold len; lia).
    unfold len. rewrite Repeat_stars by lia. cbn.
    by replace (Z.to_nat (Z.of_nat (String.length s) - 4))
      with (String.length s - 4)%nat by lia.
  - rewrite bool_decide_eq_false_2 by (unfold len; lia).
    apply Repeat_len.
Qed.

Lemma mask_phone_rule (s : string) : mask_phone s = Ok (rule_last4 s).
Proof.
  unfold mask_phone, rule_last4.
  destruct (Nat.ltb_spec 4 (String.length s)) as [Hn|Hn].
  - rewrite bool_decide_eq_true_2 by (unfold len; lia).
    rewrite (slice_suffix s 4) by (unfold len; lia).
    unfold len. rewrite Repeat_stars by lia. cbn.
    by replace (Z.to_nat (Z.of_nat (String.length s) - 4))
      with (String.length s - 4)%nat by lia.
  - rewrite bool_decide_eq_false_2 by (unfold len; lia).
    apply Repeat_len.
Qed.

Lemma mask_creditcard_rule (s : string) :
  mask_creditcard s = Ok (rule_last4 s).
Proof. apply mask_phone_rule. Qed.

Lemma mask_dob_rule (s : string) : mask_dob s = Ok (rule_dob s).
Proof.
  unfold mask_dob, rule_dob.
  destruct (Nat.eqb_spec (String.length s) 10) as [Hn|Hn].
  - rewrite bool_decide_eq_true_2 by (unfold len; lia).
    by rewrite (slice_suffix s 2) by (unfold len; lia).
  - rewrite bool_decide_eq_false_2 by (unfold len; lia).
    apply Repeat_len.
Qed.

Lemma length_rule_full (s : string) :
  String.length (rule_full s) = String.length s.
Proof. apply length_stars. Qed.

Lemma length_rule_partial (s : string) :
  String.length (rule_partial s) = String.length s.
Proof.
  unfold rule_partial.
  destruct (Nat.ltb_spec 4 (String.length s)) as [Hn|Hn].
  - rewrite !length_app, length_stars, length_firstChars.
    rewrite length_lastChars by lia. lia.
  - apply length_stars.
Qed.

Lemma length_rule_last4 (s : string) :
  String.length (rule_last4 s) = String.length s.
Proof.
  unfold rule_last4.
  destruct (Nat.ltb_spec 4 (String.length s)) as [Hn|Hn].
  - rewrite length_app, length_stars.
    rewrite length_lastChars by lia. lia.
  - apply length_stars.
Qed.

Lemma length_rule_dob (s : string) :
  String.length (rule_dob s) = String.length s.
Proof.
  unfold rule_dob.
  destruct (Nat.eqb_spec (String.length s) 10) as [Hn|Hn].
  - rewrite length_app. rewrite length_lastChars by lia. cbn. lia.
  - apply length_stars.
Qed.

(** What [init] leaves under each built-in name. *)
Lemma maskRegistry_builtin :
  maskRegistry !! "partial" = Some mask_partial ∧
  maskRegistry !! "full" = Some mask_full ∧
  maskRegistry !! "phone" = Some mask_phone ∧
  maskRegistry !! "creditcard" = Some mask_creditcard ∧
  maskRegistry !! "dob" = Some mask_dob ∧
  maskRegistry !! "password" = Some mask_password ∧
  maskRegistry !! "token" = Some mask_token ∧
  maskRegistry !! "none" = Some mask_none ∧
  maskRegistry !! "email" = Some mask_email.
Proof. repeat split; reflexivity. Qed.

End Builtins.

(** C7.  Every built-in strategy of the table computes the rule the
    specification gives for it, on every input string: full, password and
    token give [n] asterisks; partial gives the first 2 characters, [n-4]
    asterisks and the last 2 characters when [n > 4], and [n] asterisks
    otherwise; phone and creditcard give [n-4] asterisks and the last 4
    characters when [n > 4], and [n] asterisks otherwise; dob gives
    ["****-**-"] and the last 2 characters when [n = 10], and [n] asterisks
    otherwise; none is the identity.  A four-character input is fully
    masked by partial, phone and creditcard. *)
Theorem builtin_strategies_follow_table (s : string) :
  Forall (λ nr, applyStrategy maskRegistry nr.1 s = Some (Ok (nr.2 s))) table
  ∧ Forall (λ name, applyStrategy maskRegistry name "abcd" = Some (Ok "****"))
           ["partial"; "phone"; "creditcard"].
Proof.
  destruct maskRegistry_builtin
    as (Hpartial & Hfull & Hphone & Hcc & Hdob & Hpw & Htok & Hnone & _).
  split.
  - unfold table, applyStrategy.
    repeat apply Forall_cons_2; try apply Forall_nil_2; cbn [fst snd].
    + rewrite Hfull. cbn. by rewrite mask_full_rule.
    + rewrite Hpw. cbn. unfold mask_password. by rewrite Repeat_len.
    + rewrite Htok. cbn. unfold mask_token. by rewrite Repeat_len.
    + rewrite Hpartial. cbn. by rewrite mask_partial_rule.
    + rewrite Hphone. cbn. by rewrite mask_phone_rule.
    + rewrite Hcc. cbn. by rewrite mask_creditcard_rule.
    + rewrite Hdob. cbn. by rewrite mask_dob_rule.
    + rewrite Hnone. reflexivity.
  - repeat apply Forall_cons_2; try apply Forall_nil_2; reflexivity.
Qed.

(** C8.  For every input string, each of partial, phone, creditcard, full,
    dob, password and token returns a string of the length of its input. *)
Theorem builtin_strategies_preserve_length (s : string) :
  Forall (λ name, ∃ r, applyStrategy maskRegistry name s = Some (Ok r)
                       ∧ String.length r = String.length s)
         lengthPreserving.
Proof.
  destruct maskRegistry_builtin
    as (Hpartial & Hfull & Hphone & Hcc & Hdob & Hpw & Htok & _).
  unfold lengthPreserving, applyStrategy.
  repeat apply Forall_cons_2; try apply Forall_nil_2.
  - rewrite Hpartial. cbn. rewrite mask_partial_rule.
    eexists; split; [reflexivity|apply length_rule_partial].
  - rewrite Hphone. cbn. rewrite mask_phone_rule.
    eexists; split; [reflexivity|apply length_rule_last4].
  - rewrite Hcc. cbn. rewrite mask_creditcard_rule.
    eexists; split; [reflexivity|apply length_rule_last4].
  - rewrite Hfull. cbn. rewrite mask_full_rule.
    eexists; split; [reflexivity|apply length_rule_full].
  - rewrite Hdob. cbn. rewrite mask_dob_rule.
    eexists; split; [reflexivity|apply length_rule_dob].
  - rewrite Hpw. cbn. unfold mask_password. rewrite Repeat_len.
    eexists; split; [reflexivity|apply length_rule_full].
  - rewrite Htok. cbn. unfold mask_token. rewrite Repeat_len.
    eexists; split; [reflexivity|apply length_rule_full].
Qed.

(** C4.  The email strategy panics on an input whose part before the ['@']
    is empty: [parts[0][:1]] slices an empty string.  The empty string
    itself is mapped to the empty string. *)
Theorem email_panics_on_empty_local_part :
  applyStrategy maskRegistry "email" "@example.com" = Some (Err GoPanic)
  ∧ applyStrategy maskRegistry "email" "" = Some (Ok "").
Proof. split; reflexivity. Qed.

(** ** The registry *)

Section RegistryFacts.

Lemma registerAll_lookup_ne (regs : list (string * MaskFunc))
    (r : Registry) (k : string) :
  Forall (λ nf, nf.1 ≠ k) regs → registerAll regs r !! k = r !! k.
Proof.
  unfold registerAll. revert r.
  induction regs as [|[n f] regs IH]; intros r Hne; [reflexivity|].
  apply Forall_cons_1 in Hne as [Hn Hne]. cbn in *.
  rewrite IH by assumption.
  unfold RegisterMaskFunc. by rewrite lookup_insert_ne.
Qed.

(** [init] stores under each alias the very function value it stored
    under the underlying name. *)
Lemma alias_installed (alias underlying : string) :
  (alias, underlying) ∈ groupAliases →
  alias ∈ groupAliases.*1
  ∧ is_Some (maskRegistry !! underlying)
  ∧ maskRegistry !! alias = maskRegistry !! underlying.
Proof.
  unfold groupAliases. intros Hin.
  repeat (apply elem_of_cons in Hin as [Hin|Hin];
          [injection Hin as -> ->;
           split; [cbn; set_solver|split; [eexists|]; reflexivity]|]).
  by apply elem_of_nil in Hin.
Qed.

End RegistryFacts.

(** C9.  Group aliases are bound by value when [init] installs them: after
    any later registrations under names other than the alias names, among
    them re-registrations of the underlying strategy with another
    transform, the alias still resolves to the transform [init] had put
    under the underlying name, a transform that exists. *)
Theorem group_alias_bound_by_value (regs : list (string * MaskFunc))
    (alias underlying : string) :
  (alias, underlying) ∈ groupAliases →
  Forall (λ nf, nf.1 ∉ groupAliases.*1) regs →
  registerAll regs maskRegistry !! alias = maskRegistry !! underlying
  ∧ is_Some (maskRegistry !! underlying).
Proof.
  intros Hin Hregs.
  destruct (alias_installed alias underlying Hin) as (Ha & Hsome & Heq).
  split; [|assumption].
  rewrite registerAll_lookup_ne; [assumption|].
  eapply Forall_impl; [exact Hregs|].
  intros nf Hnf Hk. apply Hnf. by rewrite Hk.
Qed.

Lemma group_alias_bound_by_value_witness :
  ("PII", "partial") ∈ groupAliases
  ∧ Forall (λ nf : string * MaskFunc, nf.1 ∉ groupAliases.*1)
           [("partial", mask_none); ("dob", mask_full)]
  ∧ registerAll [("partial", mask_none); ("dob", mask_full)] maskRegistry !! "partial"
      = Some mask_none
  ∧ registerAll [("partial", mask_none); ("dob", mask_full)] maskRegistry !! "PII"
      = Some mask_partial.
Proof.
  assert (Hin : ("PII", "partial") ∈ groupAliases) by (apply list_elem_of_here).
  assert (Hregs : Forall (λ nf : string * MaskFunc, nf.1 ∉ groupAliases.*1)
                         [("partial", mask_none); ("dob", mask_full)]).
  { repeat apply Forall_cons_2; try apply Forall_nil_2;
      apply (bool_decide_unpack _); exact I. }
  split; [exact Hin|]. split; [exact Hregs|]. split; [reflexivity|].
  exact (proj1 (group_alias_bound_by_value _ "PII" "partial" Hin Hregs)).
Defined.

(** ** The context-scoped entry point *)

(** C5.  When the disable flag of the active policy is set, whether the
    policy is passed explicitly or read from the context carrier, the whole
    call is a no-op whatever the override set holds: the store comes back
    unchanged (for any fuel, since the traversal does not start), and the
    context-scoped call gives exactly the result of passing the same policy
    explicitly. *)
Theorem disabled_masking_is_noop (reg : Registry) (fuel : nat)
    (v : option gval) (policy : MaskPolicy) (ctx : Context) (h : heap) :
  disableMasking policy = true →
  policyOf ctx = policy →
  MaskWithPolicy reg fuel v policy h = Ok h
  ∧ MaskWithContext reg fuel v ctx h = Ok h
  ∧ MaskWithContext reg fuel v ctx h = MaskWithPolicy reg fuel v policy h.
Proof.
  intros Hdis Hctx. unfold MaskWithContext. rewrite Hctx.
  unfold MaskWithPolicy. rewrite Hdis. auto.
Qed.

Lemma disabled_masking_is_noop_witness :
  let policy := mkPolicy {["Name" := "partial"]} true in
  let ctx := mkContext (Some {["Name" := "partial"]}) (Some true) in
  disableMasking policy = true
  ∧ policyOf ctx = policy
  ∧ MaskWithContext maskRegistry 0 (Some (addr 0)) ctx [account "John"]
      = Ok [account "John"].
Proof.
  intros policy ctx.
  split; [reflexivity|]. split; [reflexivity|].
  exact (proj1 (proj2 (disabled_masking_is_noop maskRegistry 0 (Some (addr 0))
                         policy ctx [account "John"] eq_refl eq_refl))).
Defined.

(** ** The store *)

Section StoreFacts.

Lemma upd_sub_same (p : path) : ∀ (v w v' : gval),
  upd v p w = Some v' → sub v' p = Some w.
Proof.
  induction p as [|i p IH]; intros v w v' Hupd; cbn in *.
  - congruence.
  - destruct v; try discriminate.
    + destruct (fs !! i) as [[f fv]|] eqn:Hi; [|discriminate]. cbn in *.
      destruct (upd fv p w) as [fv'|] eqn:Hfv; [|discriminate].
      injection Hupd as <-. cbn.
      rewrite list_lookup_insert_eq by (by eapply lookup_lt_Some). cbn.
      by eapply IH.
    + destruct (es !! i) as [e|] eqn:Hi; [|discriminate]. cbn in *.
      destruct (upd e p w) as [e'|] eqn:He; [|discriminate].
      injection Hupd as <-. cbn.
      rewrite list_lookup_insert_eq by (by eapply lookup_lt_Some). cbn.
      by eapply IH.
Qed.

Lemma upd_upd (p : path) : ∀ (v w w' v' : gval),
  upd v p w = Some v' → upd v' p w' = upd v p w'.
Proof.
  induction p as [|i p IH]; intros v w w' v' Hupd; cbn in *.
  - reflexivity.
  - destruct v; try discriminate.
    + destruct (fs !! i) as [[f fv]|] eqn:Hi; [|discriminate]. cbn in *.
      destruct (upd fv p w) as [fv'|] eqn:Hfv; [|discriminate].
      injection Hupd as <-. cbn.
      rewrite list_lookup_insert_eq by (by eapply lookup_lt_Some). cbn.
      rewrite (IH _ _ w' _ Hfv).
      destruct (upd fv p w'); [|reflexivity]. cbn.
      by rewrite list_insert_insert_eq.
    + destruct (es !! i) as [e|] eqn:Hi; [|discriminate]. cbn in *.
      destruct (upd e p w) as [e'|] eqn:He; [|discriminate].
      injection Hupd as <-. cbn.
      rewrite list_lookup_insert_eq by (by eapply lookup_lt_Some). cbn.
      rewrite (IH _ _ w' _ He).
      destruct (upd e p w'); [|reflexivity]. cbn.
      by rewrite list_insert_insert_eq.
Qed.

Lemma upd_sub_id (p : path) : ∀ (v w : gval),
  sub v p = Some w → upd v p w = Some v.
Proof.
  induction p as [|i p IH]; intros v w Hsub; cbn in *.
  - congruence.
  - destruct v; try discriminate.
    + destruct (fs !! i) as [[f fv]|] eqn:Hi; [|discriminate]. cbn in *.
      rewrite (IH _ _ Hsub). cbn. by rewrite list_insert_id.
    + destruct (es !! i) as [e|] eqn:Hi; [|discriminate]. cbn in *.
      rewrite (IH _ _ Hsub). cbn. by rewrite list_insert_id.
Qed.

Lemma upd_is_Some (p : path) : ∀ (v w w' : gval),
  sub v p = Some w → is_Some (upd v p w').
Proof.
  induction p as [|i p IH]; intros v w w' Hsub; cbn in *.
  - by eexists.
  - destruct v; try discriminate.
    + destruct (fs !! i) as [[f fv]|] eqn:Hi; [|discriminate]. cbn in *.
      destruct (IH _ _ w' Hsub) as [x ->]. by eexists.
    + destruct (es !! i) as [e|] eqn:Hi; [|discriminate]. cbn in *.
      destruct (IH _ _ w' Hsub) as [x ->]. by eexists.
Qed.

Lemma load_store (h h' : heap) (l : loc) (p : path) (w : gval) :
  store h l p w = Some h' → load h' l p = Some w.
Proof.
  unfold store, load. intros Hst.
  destruct (h !! l) as [c|] eqn:Hl; [|discriminate]. cbn in *.
  destruct (upd c p w) as [c'|] eqn:Hc; [|discriminate].
  injection Hst as <-.
  rewrite list_lookup_insert_eq by (by eapply lookup_lt_Some). cbn.
  by eapply upd_sub_same.
Qed.

Lemma store_store (h h' : heap) (l : loc) (p : path) (w w' : gval) :
  store h l p w = Some h' → store h' l p w' = store h l p w'.
Proof.
  unfold store. intros Hst.
  destruct (h !! l) as [c|] eqn:Hl; [|discriminate]. cbn in *.
  destruct (upd c p w) as [c'|] eqn:Hc; [|discriminate].
  injection Hst as <-.
  rewrite list_lookup_insert_eq by (by eapply lookup_lt_Some). cbn.
  rewrite (upd_upd _ _ _ w' _ Hc).
  destruct (upd c p w'); [|reflexivity]. cbn.
  by rewrite list_insert_insert_eq.
Qed.

Lemma store_load_id (h : heap) (l : loc) (p : path) (w : gval) :
  load h l p = Some w → store h l p w = Some h.
Proof.
  unfold store, load. intros Hld.
  destruct (h !! l) as [c|] eqn:Hl; [|discriminate]. cbn in *.
  rewrite (upd_sub_id _ _ _ Hld). cbn. by rewrite list_insert_id.
Qed.

Lemma store_is_Some (h : heap) (l : loc) (p : path) (w w' : gval) :
  load h l p = Some w → is_Some (store h l p w').
Proof.
  unfold store, load. intros Hld.
  destruct (h !! l) as [c|] eqn:Hl; [|discriminate]. cbn in *.
  destruct (upd_is_Some _ _ _ w' Hld) as [c' ->]. by eexists.
Qed.

End StoreFacts.

(** ** Loops *)

Section LoopFacts.

Context {A : Type}.

(** Two loops whose bodies agree wherever an invariant holds, and keep
    it, agree and keep it. *)
Lemma foldM_rel (I : heap → Prop) (f g : A → heap → res heap) (l : list A) :
  (∀ a h, a ∈ l → I h → f a h = g a h ∧ ∀ h', f a h = Ok h' → I h') →
  ∀ h, I h → foldM f l h = foldM g l h ∧ ∀ h', foldM f l h = Ok h' → I h'.
Proof.
  induction l as [|a l IH]; intros Hstep h Hh; cbn.
  - split; [reflexivity|]. by intros h' [= <-].
  - destruct (Hstep a h) as [Hfg Hkeep]; [apply list_elem_of_here|assumption|].
    rewrite <- Hfg.
    destruct (f a h) as [h1|e]; cbn; [|split; [reflexivity|discriminate]].
    apply IH; [|by apply Hkeep].
    intros b h2 Hb. apply Hstep. by apply list_elem_of_further.
Qed.

Lemma foldM_cons (f : A → heap → res heap) (a : A) (l : list A) (h : heap) :
  foldM f (a :: l) h = (h' ← f a h; foldM f l h').
Proof. reflexivity. Qed.

Lemma omap_cons_eq {B : Type} (f : A → option B) (a : A) (l : list A) :
  omap f (a :: l) =
    match f a with
    | Some b => b :: omap f l
    | None => omap f l
    end.
Proof. reflexivity. Qed.

Lemma foldM_ext (f g : A → heap → res heap) (l : list A) (h : heap) :
  (∀ a h, f a h = g a h) → foldM f l h = foldM g l h.
Proof.
  intros Hfg.
  apply (foldM_rel (λ _, True) f g l); [|exact I].
  intros a h1 _ _. split; [apply Hfg|done].
Qed.

End LoopFacts.

(** ** Tags *)

Section TagFacts.

Variable reg : Registry.

(** The loop over the segments of a tag, on a settable string field:
    the transforms named are applied one after the other to what the
    field holds, and the last result is what the field holds in the end. *)
Lemma tagPart_segment (value : rvalue) (part : string) (h : heap) :
  tagPart reg value part h =
    match segmentTransform reg part with
    | Some fn => applyTo fn value h
    | None => Ok h
    end.
Proof.
  unfold tagPart, segmentTransform.
  by destruct (HasPrefix part "strategy:").
Qed.

Lemma foldM_tagPart (l : loc) (q : path) (parts : list string) :
  ∀ (s : string) (h : heap),
    load h l q = Some (VString s) →
    foldM (tagPart reg (RVar l q)) parts h =
      s' ← composeAll (omap (segmentTransform reg) parts) s;
      SetString (RVar l q) s' h.
Proof.
  induction parts as [|part parts IH]; intros s h Hld.
  - cbn. by rewrite (store_load_id _ _ _ _ Hld).
  - rewrite foldM_cons, omap_cons_eq, tagPart_segment.
    destruct (segmentTransform reg part) as [fn|]; [|by apply IH].
    unfold applyTo, read. cbn [composeAll]. rewrite Hld, bind_Ok.
    destruct (fn s) as [s1|e]; [|reflexivity].
    destruct (store_is_Some h l q _ (VString s1) Hld) as [h1 Hst].
    rewrite !bind_Ok. unfold SetString at 1. rewrite Hst, bind_Ok.
    rewrite (IH s1 h1) by (by eapply load_store).
    destruct (composeAll _ s1) as [s2|e]; [|reflexivity].
    rewrite !bind_Ok. unfold SetString.
    by rewrite (store_store _ _ _ _ _ (VString s2) Hst).
Qed.

(** The field step on a settable string field with a non-empty tag, when
    the override block goes on to the tag-based default. *)
Lemma maskField_tag (overrides : MaskOverrides)
    (recurse : rvalue → heap → res heap) (l : loc) (p : path) (i : nat)
    (field : StructField) (s : string) (h : heap) :
  load h l (p ++ [i]) = Some (VString s) →
  exported field = true →
  maskTag field ≠ "" →
  overrideDecision reg overrides (Name field) = None →
  maskField reg overrides recurse (RVar l p) (i, field) h =
    s' ← composeAll (tagTransforms reg (maskTag field)) s;
    SetString (RVar l (p ++ [i])) s' h.
Proof.
  intros Hld Hexp Htag Hov.
  assert (Hdef : tagDefault reg recurse field (RVar l (p ++ [i])) (VString s) h
                 = s' ← composeAll (tagTransforms reg (maskTag field)) s;
                   SetString (RVar l (p ++ [i])) s' h).
  { unfold tagDefault. rewrite bool_decide_eq_true_2 by assumption.
    by apply foldM_tagPart. }
  unfold maskField. cbn [fst snd Field CanSet read]. rewrite Hexp, Hld.
  cbn [negb]. rewrite bind_Ok.
  unfold overrideDecision in Hov.
  destruct (overrides !! Name field) as [strategy|]; [|exact Hdef].
  case_bool_decide; [discriminate|].
  destruct (reg !! strategy); [discriminate|exact Hdef].
Qed.

End TagFacts.



(** ** Field names and the store *)

Section NameFacts.

Variable N : string.

Lemma existsb_false {A : Type} (f : A → bool) (l : list A) :
  existsb f l = false ↔ Forall (λ x, f x = false) l.
Proof.
  induction l as [|a l IH]; cbn.
  - split; [constructor|reflexivity].
  - rewrite orb_false_iff, Forall_cons, IH. reflexivity.
Qed.

Lemma mentions_struct (fs : list (StructField * gval)) :
  mentions N (VStruct fs) = false ↔
  Forall (λ fv, Name fv.1 ≠ N ∧ mentions N fv.2 = false) fs.
Proof.
  change (mentions N (VStruct fs))
    with (existsb (λ fv, bool_decide (Name fv.1 = N) || mentions N fv.2) fs).
  rewrite existsb_false. apply Forall_proper; [|reflexivity].
  intros [f v]. cbn. rewrite orb_false_iff, bool_decide_eq_false.
  reflexivity.
Qed.

Lemma mentions_array (es : list gval) :
  mentions N (VArray es) = false ↔ Forall (λ e, mentions N e = false) es.
Proof.
  change (mentions N (VArray es)) with (existsb (mentions N) es).
  apply existsb_false.
Qed.

Lemma mentions_sub (p : path) : ∀ (v w : gval),
  mentions N v = false → sub v p = Some w → mentions N w = false.
Proof.
  induction p as [|i p IH]; intros v w Hv Hsub; cbn in Hsub.
  - by injection Hsub as <-.
  - destruct v; try discriminate.
    + destruct (fs !! i) as [[f fv]|] eqn:Hi; [|discriminate].
      apply mentions_struct in Hv.
      apply (Forall_lookup_1 _ _ _ _ Hv) in Hi as [_ Hfv].
      by eapply IH.
    + destruct (es !! i) as [e|] eqn:Hi; [|discriminate].
      apply mentions_array in Hv.
      apply (Forall_lookup_1 _ _ _ _ Hv) in Hi.
      by eapply IH.
Qed.

Lemma mentions_upd (p : path) : ∀ (v v' : gval) (s : string),
  mentions N v = false → upd v p (VString s) = Some v' →
  mentions N v' = false.
Proof.
  induction p as [|i p IH]; intros v v' s Hv Hupd; cbn in Hupd.
  - by injection Hupd as <-.
  - destruct v; try discriminate.
    + destruct (fs !! i) as [[f fv]|] eqn:Hi; [|discriminate]. cbn in Hupd.
      destruct (upd fv p (VString s)) as [fv'|] eqn:Hfv; [|discriminate].
      injection Hupd as <-.
      apply mentions_struct in Hv. apply mentions_struct.
      apply Forall_insert; [assumption|].
      apply (Forall_lookup_1 _ _ _ _ Hv) in Hi as [Hname Hm].
      split; [assumption|]. by eapply IH.
    + destruct (es !! i) as [e|] eqn:Hi; [|discriminate]. cbn in Hupd.
      destruct (upd e p (VString s)) as [e'|] eqn:He; [|discriminate].
      injection Hupd as <-.
      apply mentions_array in Hv. apply mentions_array.
      apply Forall_insert; [assumption|].
      apply (Forall_lookup_1 _ _ _ _ Hv) in Hi. by eapply IH.
Qed.

Lemma nofield_load (h : heap) (l : loc) (p : path) (v : gval) :
  nofield N h → load h l p = Some v → mentions N v = false.
Proof.
  unfold nofield, load. intros Hh Hld.
  destruct (h !! l) as [c|] eqn:Hl; [|discriminate].
  apply (Forall_lookup_1 _ _ _ _ Hh) in Hl. by eapply mentions_sub.
Qed.

Lemma nofield_store (h h' : heap) (l : loc) (p : path) (s : string) :
  nofield N h → store h l p (VString s) = Some h' → nofield N h'.
Proof.
  unfold nofield, store. intros Hh Hst.
  destruct (h !! l) as [c|] eqn:Hl; [|discriminate]. cbn in Hst.
  destruct (upd c p (VString s)) as [c'|] eqn:Hc; [|discriminate].
  injection Hst as <-.
  apply Forall_insert; [assumption|].
  apply (Forall_lookup_1 _ _ _ _ Hh) in Hl. by eapply mentions_upd.
Qed.

Lemma enumerateFrom_elem {A : Type} (l : list A) : ∀ (k i : nat) (a : A),
  (i, a) ∈ enumerateFrom k l → a ∈ l.
Proof.
  induction l as [|b l IH]; intros k i a Hin; cbn in Hin.
  - by apply elem_of_nil in Hin.
  - apply elem_of_cons in Hin as [[= -> ->]|Hin].
    + apply list_elem_of_here.
    + apply list_elem_of_further. by eapply IH.
Qed.

Lemma field_names (fs : list (StructField * gval)) (k i : nat)
    (f : StructField) :
  mentions N (VStruct fs) = false →
  (i, f) ∈ enumerateFrom k fs.*1 → Name f ≠ N.
Proof.
  intros Hv Hin. apply enumerateFrom_elem in Hin.
  apply list_elem_of_fmap in Hin as ([f' v] & -> & Hin).
  apply mentions_struct in Hv.
  by apply (proj1 (Forall_forall _ _) Hv) in Hin as [Hname _].
Qed.

End NameFacts.

(** ** What a traversal can change *)

Section Frame.

Variable reg : Registry.
Variable N : string.

Lemma foldM_inv {A : Type} (I : heap → Prop) (f : A → heap → res heap)
    (l : list A) (h h' : heap) :
  (∀ a h1 h2, a ∈ l → I h1 → f a h1 = Ok h2 → I h2) →
  I h → foldM f l h = Ok h' → I h'.
Proof.
  intros Hstep Hh Hrun.
  refine (proj2 (foldM_rel I f f l _ h Hh) h' Hrun).
  intros a h1 Ha Hh1. split; [reflexivity|]. intros h2. by apply Hstep.
Qed.

Lemma SetString_nofield (value : rvalue) (s : string) (h h' : heap) :
  nofield N h → SetString value s h = Ok h' → nofield N h'.
Proof.
  intros Hh. unfold SetString.
  destruct value as [|v|l p]; try discriminate.
  destruct (store h l p (VString s)) as [h1|] eqn:Hst; [|discriminate].
  intros [= <-]. by eapply nofield_store.
Qed.

Lemma applyTo_nofield (fn : MaskFunc) (value : rvalue) (h h' : heap) :
  nofield N h → applyTo fn value h = Ok h' → nofield N h'.
Proof.
  intros Hh. unfold applyTo.
  destruct (read h value) as [cur|e]; [|discriminate]. rewrite bind_Ok.
  destruct cur; try discriminate.
  destruct (fn s) as [s'|e]; [|discriminate]. rewrite bind_Ok.
  by apply SetString_nofield.
Qed.

Lemma tagPart_nofield (value : rvalue) (part : string) (h h' : heap) :
  nofield N h → tagPart reg value part h = Ok h' → nofield N h'.
Proof.
  intros Hh. unfold tagPart.
  destruct (HasPrefix part "strategy:"); [|by intros [= <-]].
  destruct (reg !! TrimPrefix part "strategy:") as [fn|];
    [by apply applyTo_nofield|by intros [= <-]].
Qed.

Lemma tagDefault_nofield (recurse : rvalue → heap → res heap)
    (field : StructField) (value : rvalue) (cur : gval) (h h' : heap) :
  (∀ h2, recurse value h = Ok h2 → nofield N h2) →
  nofield N h → tagDefault reg recurse field value cur h = Ok h' →
  nofield N h'.
Proof.
  intros Hrec Hh. unfold tagDefault.
  destruct (bool_decide (maskTag field ≠ "") && isString cur).
  - apply (foldM_inv (nofield N)); [|assumption].
    intros part h1 h2 _. apply tagPart_nofield.
  - apply Hrec.
Qed.

Lemma maskField_nofield (overrides : MaskOverrides)
    (recurse : rvalue → heap → res heap) (rv : rvalue)
    (fld : nat * StructField) (h h' : heap) :
  (∀ h2, recurse (Field rv fld.1) h = Ok h2 → nofield N h2) →
  nofield N h → maskField reg overrides recurse rv fld h = Ok h' →
  nofield N h'.
Proof.
  intros Hrec Hh. unfold maskField.
  destruct (negb (CanSet (Field rv fld.1) fld.2)); [by intros [= <-]|].
  destruct (read h (Field rv fld.1)) as [cur|e]; [|discriminate].
  rewrite bind_Ok.
  pose proof (tagDefault_nofield recurse fld.2 (Field rv fld.1) cur h h'
                Hrec Hh) as Htag.
  destruct (overrides !! Name fld.2) as [strategy|]; [|exact Htag].
  destruct (bool_decide (strategy = "none")); [by intros [= <-]|].
  destruct (reg !! strategy) as [fn|]; [|exact Htag].
  destruct (isString cur); [by apply applyTo_nofield|exact Htag].
Qed.

Lemma maskKind_nofield (overrides : MaskOverrides)
    (recurse : rvalue → heap → res heap) (rv : rvalue) (v : gval)
    (h h' : heap) :
  (∀ rv1 h1 h2, nofield N h1 → recurse rv1 h1 = Ok h2 → nofield N h2) →
  nofield N h → maskKind reg overrides recurse rv v h = Ok h' →
  nofield N h'.
Proof.
  intros Hrec Hh. unfold maskKind. destruct v; try (by intros [= <-]).
  - apply (foldM_inv (nofield N)); [|assumption].
    intros fld h1 h2 _ Hh1. apply maskField_nofield; [|assumption].
    intros h3. by apply Hrec.
  - apply (foldM_inv (nofield N)); [|assumption].
    intros i h1 h2 _. apply Hrec.
  - destruct backing as [l|]; [|by intros [= <-]].
    destruct (read h (RVar l [])) as [b|e]; [|discriminate].
    rewrite bind_Ok. destruct b; try discriminate.
    apply (foldM_inv (nofield N)); [|assumption].
    intros i h1 h2 _. apply Hrec.
  - apply (foldM_inv (nofield N)); [|assumption].
    intros kv h1 h2 _. apply Hrec.
Qed.

(** A traversal only replaces strings by strings: it adds no field name
    to the store. *)
Lemma maskValue_nofield (overrides : MaskOverrides) (fuel : nat) :
  ∀ (rv : rvalue) (h h' : heap),
    nofield N h → maskValue reg fuel overrides rv h = Ok h' → nofield N h'.
Proof.
  induction fuel as [|n IH]; intros rv h h' Hh; cbn [maskValue];
    [discriminate|].
  destruct (negb (IsValid rv)); [by intros [= <-]|].
  destruct (read h rv) as [v|e]; [|discriminate]. rewrite bind_Ok. cbn zeta.
  destruct (read h (indirect rv v)) as [v'|e]; [|discriminate].
  rewrite bind_Ok. by apply maskKind_nofield.
Qed.

End Frame.

(** ** Override sets that decide alike *)

Section Agreement.

Variable reg : Registry.
Variables ov ov' : MaskOverrides.

Lemma maskField_decision (rec rec' : rvalue → heap → res heap)
    (rv : rvalue) (fld : nat * StructField) (h : heap) :
  (CanSet (Field rv fld.1) fld.2 = true →
   overrideDecision reg ov (Name fld.2) = overrideDecision reg ov' (Name fld.2)) →
  rec (Field rv fld.1) h = rec' (Field rv fld.1) h →
  maskField reg ov rec rv fld h = maskField reg ov' rec' rv fld h.
Proof.
  intros Hdec Hrec. unfold maskField.
  destruct (CanSet (Field rv fld.1) fld.2); [|reflexivity].
  specialize (Hdec eq_refl). cbn [negb].
  destruct (read h (Field rv fld.1)) as [cur|e]; [|reflexivity].
  rewrite !bind_Ok.
  assert (Htag : tagDefault reg rec fld.2 (Field rv fld.1) cur h
                 = tagDefault reg rec' fld.2 (Field rv fld.1) cur h).
  { unfold tagDefault. by rewrite Hrec. }
  unfold overrideDecision in Hdec.
  destruct (ov !! Name fld.2) as [s1|], (ov' !! Name fld.2) as [s2|];
    repeat case_bool_decide;
    try destruct (reg !! s1) as [f1|];
    try destruct (reg !! s2) as [f2|];
    cbn in Hdec; try discriminate; try reflexivity; try assumption;
    try (injection Hdec as ->; by rewrite Htag).
Qed.

Variable N : string.

Hypothesis other_names :
  ∀ name, name ≠ N →
    overrideDecision reg ov name = overrideDecision reg ov' name.

Local Abbreviation harmless := (differenceHarmless reg ov ov' N).

Lemma harmless_decision (h : heap) (rv : rvalue) (fs : list (StructField * gval))
    (k i : nat) (f : StructField) :
  harmless h → read h rv = Ok (VStruct fs) →
  (i, f) ∈ enumerateFrom k fs.*1 →
  CanSet (Field rv i) f = true →
  overrideDecision reg ov (Name f) = overrideDecision reg ov' (Name f).
Proof.
  intros Hh Hread Hin Hset.
  destruct (decide (Name f = N)) as [HN|HN]; [|by apply other_names].
  destruct Hh as [Hagree|Hno]; [by rewrite HN|].
  destruct rv as [|v|l p].
  - discriminate Hread.
  - unfold Field in Hset. destruct (sub v [i]); discriminate Hset.
  - cbn in Hread. destruct (load h l p) as [v|] eqn:Hld; [|discriminate].
    injection Hread as ->.
    exfalso. eapply field_names; [|exact Hin|exact HN].
    by eapply nofield_load.
Qed.

Lemma maskKind_agree (rec rec' : rvalue → heap → res heap)
    (rv : rvalue) (v : gval) (h : heap) :
  (∀ rv1 h1, harmless h1 → rec rv1 h1 = rec' rv1 h1) →
  (∀ rv1 h1 h2, nofield N h1 → rec rv1 h1 = Ok h2 → nofield N h2) →
  harmless h → read h rv = Ok v →
  maskKind reg ov rec rv v h = maskKind reg ov' rec' rv v h.
Proof.
  intros Hrec Hkeep Hh Hread.
  assert (Hstep : ∀ (g : rvalue) h1 h2,
             harmless h1 → rec g h1 = Ok h2 → harmless h2).
  { intros g h1 h2 [Ha|Hn] Hrun; [by left|right]. by eapply Hkeep. }
  unfold maskKind. destruct v; try reflexivity.
  - apply (foldM_rel harmless); [|assumption].
    intros [i f] h1 Hin Hh1. split.
    + apply maskField_decision; [|by apply Hrec].
      cbn [fst snd]. intros Hset.
      exact (harmless_decision h rv fs 0 i f Hh Hread Hin Hset).
    + intros h2 Hrun. destruct Hh1 as [Ha|Hn]; [by left|right].
      eapply maskField_nofield; [|exact Hn|exact Hrun].
      intros h3. by apply Hkeep.
  - apply (foldM_rel harmless); [|assumption].
    intros i h1 _ Hh1. split; [by apply Hrec|]. intros h2. by apply Hstep.
  - destruct backing as [l|]; [|reflexivity].
    destruct (read h (RVar l [])) as [b|e]; [|reflexivity].
    rewrite !bind_Ok. destruct b; try reflexivity.
    apply (foldM_rel harmless); [|assumption].
    intros i h1 _ Hh1. split; [by apply Hrec|]. intros h2. by apply Hstep.
  - apply (foldM_rel harmless); [|assumption].
    intros kv h1 _ Hh1. split; [by apply Hrec|]. intros h2. by apply Hstep.
Qed.

Lemma maskValue_agree (fuel : nat) : ∀ (rv : rvalue) (h : heap),
  harmless h → maskValue reg fuel ov rv h = maskValue reg fuel ov' rv h.
Proof.
  induction fuel as [|n IH]; intros rv h Hh; cbn [maskValue];
    [reflexivity|].
  destruct (negb (IsValid rv)); [reflexivity|].
  destruct (read h rv) as [v|e]; [|reflexivity]. rewrite !bind_Ok. cbn zeta.
  destruct (read h (indirect rv v)) as [v'|e] eqn:Hread; [|reflexivity].
  rewrite !bind_Ok.
  apply maskKind_agree; try assumption.
  intros rv1 h1 h2. apply maskValue_nofield.
Qed.

End Agreement.

(** ** Fuel *)

Section Fuel.

Variable reg : Registry.
Variable overrides : MaskOverrides.

Lemma foldM_mono {A : Type} (f g : A → heap → res heap) (l : list A) :
  (∀ a h h', f a h = Ok h' → g a h = Ok h') →
  ∀ h h', foldM f l h = Ok h' → foldM g l h = Ok h'.
Proof.
  intros Hfg. induction l as [|a l IH]; intros h h'; [done|].
  rewrite !foldM_cons.
  destruct (f a h) as [h1|e] eqn:Hf; [|discriminate].
  rewrite (Hfg _ _ _ Hf), !bind_Ok. apply IH.
Qed.

Lemma maskField_mono (rec rec' : rvalue → heap → res heap) (rv : rvalue)
    (fld : nat * StructField) (h h' : heap) :
  (∀ rv1 h1 h2, rec rv1 h1 = Ok h2 → rec' rv1 h1 = Ok h2) →
  maskField reg overrides rec rv fld h = Ok h' →
  maskField reg overrides rec' rv fld h = Ok h'.
Proof.
  intros Hrec. unfold maskField.
  destruct (negb (CanSet (Field rv fld.1) fld.2)); [done|].
  destruct (read h (Field rv fld.1)) as [cur|e]; [|done]. rewrite !bind_Ok.
  assert (Htag : tagDefault reg rec fld.2 (Field rv fld.1) cur h = Ok h' →
                 tagDefault reg rec' fld.2 (Field rv fld.1) cur h = Ok h').
  { unfold tagDefault.
    destruct (bool_decide (maskTag fld.2 ≠ "") && isString cur);
      [done|apply Hrec]. }
  destruct (overrides !! Name fld.2) as [strategy|]; [|exact Htag].
  destruct (bool_decide (strategy = "none")); [done|].
  destruct (reg !! strategy) as [fn|]; [|exact Htag].
  destruct (isString cur); [done|exact Htag].
Qed.

Lemma maskKind_mono (rec rec' : rvalue → heap → res heap) (rv : rvalue)
    (v : gval) (h h' : heap) :
  (∀ rv1 h1 h2, rec rv1 h1 = Ok h2 → rec' rv1 h1 = Ok h2) →
  maskKind reg overrides rec rv v h = Ok h' →
  maskKind reg overrides rec' rv v h = Ok h'.
Proof.
  intros Hrec. unfold maskKind. destruct v; try done.
  - apply foldM_mono. intros fld h1 h2. by apply maskField_mono.
  - apply foldM_mono. intros i h1 h2. apply Hrec.
  - destruct backing as [l|]; [|done].
    destruct (read h (RVar l [])) as [b|e]; [|done]. rewrite !bind_Ok.
    destruct b; try done.
    apply foldM_mono. intros i h1 h2. apply Hrec.
  - apply foldM_mono. intros kv h1 h2. apply Hrec.
Qed.

(** A call that returns with some fuel returns the same with more. *)
Lemma maskValue_fuel_S (fuel : nat) : ∀ (rv : rvalue) (h h' : heap),
  maskValue reg fuel overrides rv h = Ok h' →
  maskValue reg (S fuel) overrides rv h = Ok h'.
Proof.
  induction fuel as [|n IH]; intros rv h h'; [discriminate|].
  cbn [maskValue].
  destruct (negb (IsValid rv)); [done|].
  destruct (read h rv) as [v|e]; [|done]. rewrite !bind_Ok. cbn zeta.
  destruct (read h (indirect rv v)) as [v'|e]; [|done]. rewrite !bind_Ok.
  apply maskKind_mono. exact IH.
Qed.

Lemma maskValue_fuel_le (fuel fuel' : nat) (rv : rvalue) (h h' : heap) :
  (fuel ≤ fuel')%nat →
  maskValue reg fuel overrides rv h = Ok h' →
  maskValue reg fuel' overrides rv h = Ok h'.
Proof.
  induction 1 as [|m Hle IH]; [done|].
  intros Hrun. by apply maskValue_fuel_S, IH.
Qed.

End Fuel.

(** ** Overrides *)

Section OverrideFacts.

Variable reg : Registry.

Lemma overrideDecision_delete_ne (overrides : MaskOverrides) (N name : string) :
  name ≠ N →
  overrideDecision reg overrides name
  = overrideDecision reg (delete N overrides) name.
Proof.
  intros Hne. unfold overrideDecision. by rewrite lookup_delete_ne.
Qed.

Lemma overrideDecision_unregistered (overrides : MaskOverrides)
    (N strategy : string) :
  overrides !! N = Some strategy → strategy ≠ "none" →
  reg !! strategy = None →
  overrideDecision reg overrides N = None.
Proof.
  intros Hov Hnone Hreg. unfold overrideDecision. rewrite Hov.
  rewrite bool_decide_eq_false_2 by assumption. by rewrite Hreg.
Qed.

Lemma overrideDecision_deleted (overrides : MaskOverrides) (N : string) :
  overrideDecision reg (delete N overrides) N = None.
Proof. unfold overrideDecision. by rewrite lookup_delete_eq. Qed.

End OverrideFacts.

(** C1, as worded, fails: with the override [{"Name": "bogus"}], where
    ["bogus"] is not registered, the field [Name] tagged [strategy:full]
    does not keep ["John"]; the tag is consulted and the field is masked. *)
Lemma unregistered_override_counterexample :
  ¬ unregistered_override_leaves_field maskRegistry.
Proof.
  intros Hclaim.
  specialize (Hclaim 2%nat {["Name" := "bogus"]} 0%nat
                [(exportedField "Name" "strategy:full", VString "John")]
                0%nat (exportedField "Name" "strategy:full") "John" "bogus"
                [account "John"] [account "****"]
                eq_refl eq_refl eq_refl).
  discriminate Hclaim; [discriminate|reflexivity|reflexivity].
Qed.

(** C1 (amended).  An override entry that maps a field name to a strategy
    that is not registered (and is not ["none"]) is ignored: every call
    behaves exactly as if the override set had no entry under that name.
    In particular a settable string field of that name with a non-empty
    mask tag has the registered strategies of its tag applied, in order. *)
Theorem unregistered_override_is_ignored (reg : Registry)
    (overrides : MaskOverrides) (N strategy : string) :
  overrides !! N = Some strategy →
  strategy ≠ "none" →
  reg !! strategy = None →
  (∀ (fuel : nat) (rv : rvalue) (h : heap),
     maskValue reg fuel overrides rv h
     = maskValue reg fuel (delete N overrides) rv h)
  ∧ (∀ (recurse : rvalue → heap → res heap) (l : loc) (p : path) (i : nat)
       (field : StructField) (s : string) (h : heap),
       Name field = N →
       load h l (p ++ [i]) = Some (VString s) →
       exported field = true →
       maskTag field ≠ "" →
       maskField reg overrides recurse (RVar l p) (i, field) h =
         s' ← composeAll (tagTransforms reg (maskTag field)) s;
         SetString (RVar l (p ++ [i])) s' h).
Proof.
  intros Hov Hnone Hreg.
  pose proof (overrideDecision_unregistered reg overrides N strategy
                Hov Hnone Hreg) as Hdec.
  split.
  - intros fuel rv h. apply (maskValue_agree reg _ _ N).
    + intros name. apply overrideDecision_delete_ne.
    + left. by rewrite overrideDecision_deleted.
  - intros recurse l p i field s h HN Hld Hexp Htag.
    apply maskField_tag; try assumption. by rewrite HN.
Qed.

Lemma unregistered_override_is_ignored_witness :
  let overrides : MaskOverrides := {["Name" := "bogus"]} in
  overrides !! "Name" = Some "bogus"
  ∧ "bogus" ≠ "none"
  ∧ maskRegistry !! "bogus" = None
  ∧ maskValue maskRegistry 2 overrides (RCopy (addr 0)) [account "John"]
    = maskValue maskRegistry 2 (delete "Name" overrides) (RCopy (addr 0))
        [account "John"]
  ∧ maskValue maskRegistry 2 overrides (RCopy (addr 0)) [account "John"]
    = Ok [account "****"].
Proof.
  intros overrides.
  assert (Hov : overrides !! "Name" = Some "bogus") by reflexivity.
  assert (Hnone : "bogus" ≠ "none") by discriminate.
  assert (Hreg : maskRegistry !! "bogus" = None) by reflexivity.
  split; [exact Hov|]. split; [exact Hnone|]. split; [exact Hreg|].
  split; [|reflexivity].
  exact (proj1 (unregistered_override_is_ignored maskRegistry overrides
                  "Name" "bogus" Hov Hnone Hreg) 2%nat (RCopy (addr 0))
               [account "John"]).
Defined.




(** ** Maps and copies *)

(** C3.  A struct stored by value in a map is visited and left as it is:
    [rv.MapIndex(key)] is not addressable, so no field of it can be set.
    After [Mask(&holder)] the tagged string of the directly held struct [D]
    is masked, that of the same struct held as a map value is not; a map
    entry that is a pointer to the struct does get its pointee masked.
    This holds for every fuel from 3 on. *)
Theorem struct_map_value_not_masked (n : nat) :
  Mask maskRegistry (3 + n) (Some (addr 0)) [holderT "hunter2" "hunter2"]
  = Ok [holderT "hunter2" "*******"]
  ∧ Mask maskRegistry (3 + n) (Some (addr 0)) [indexT 1; innerT "hunter2"]
    = Ok [indexT 1; innerT "*******"].
Proof. split; reflexivity. Qed.

(** C6.  [MaskCopy] copies one level only: the copy of [Parent] shares the
    [Inner] its [Child] pointer refers to, and masking the copy masks that
    shared variable.  After the call the original [Parent] variable (address
    0) is as before, the [Inner] reachable from it (address 1) is masked,
    and the copy lives at the fresh address 2.  A nil pointer, a nil
    interface and a non-pointer come back as they are, the store
    untouched.  This holds for every fuel from 2 on. *)
Theorem MaskCopy_masks_shared_pointee (n : nat) :
  MaskCopy maskRegistry (2 + n) (Some (addr 0)) ∅
           [parentT "Ann" 1; innerT "hunter2"]
  = Ok (Some (addr 2), [parentT "Ann" 1; innerT "*******"; parentT "***" 1])
  ∧ (∀ (reg : Registry) (fuel : nat) (overrides : MaskOverrides) (h : heap),
       MaskCopy reg fuel None overrides h = Ok (None, h)
       ∧ MaskCopy reg fuel (Some (VPtr None)) overrides h
         = Ok (Some (VPtr None), h)
       ∧ ∀ fs, MaskCopy reg fuel (Some (VStruct fs)) overrides h
               = Ok (Some (VStruct fs), h)).
Proof. split; [reflexivity|]. intros reg fuel overrides h. repeat split. Qed.

(** * Further properties of the code *)

(** ** The email strategy *)

Section Email.

Lemma Split_cons_ne (a c : ascii) (s : string) :
  Ascii.eqb a c = false →
  ∃ p ps, Split s c = p :: ps ∧ Split (String a s) c = String a p :: ps.
Proof.
  intros Hac. cbn [Split]. rewrite Hac.
  destruct (Split s c) as [|p ps] eqn:Hs.
  - destruct s as [|b s]; cbn in Hs; [discriminate|].
    destruct (Ascii.eqb b c); [discriminate|].
    by destruct (Split s c).
  - by exists p, ps.
Qed.

(** [strings.Split] returns one part more than there are separators. *)
Lemma Split_length (c : ascii) (s : string) :
  length (Split s c) = S (countByte c s).
Proof.
  induction s as [|a s IH]; [reflexivity|].
  cbn [countByte]. destruct (Ascii.eqb a c) eqn:Hac.
  - cbn [Split]. rewrite Hac. cbn. by rewrite IH.
  - destruct (Split_cons_ne a c s Hac) as (p & ps & Hs & ->).
    rewrite Hs in IH. exact IH.
Qed.

Lemma Split_none (c : ascii) (s : string) :
  countByte c s = O → Split s c = [s].
Proof.
  induction s as [|a s IH]; [reflexivity|].
  cbn [countByte Split]. destruct (Ascii.eqb a c); [discriminate|].
  intros Hs. by rewrite (IH Hs).
Qed.

Lemma Split_at (c : ascii) (p0 rest : string) :
  countByte c p0 = O →
  Split (p0 +:+ String c rest) c = p0 :: Split rest c.
Proof.
  induction p0 as [|a p0 IH].
  - intros _. change ("" +:+ String c rest) with (String c rest).
    cbn [Split]. by rewrite Ascii.eqb_refl.
  - cbn [countByte]. destruct (Ascii.eqb a c) eqn:Hac; [discriminate|].
    intros Hp0. rewrite app_cons. cbn [Split]. rewrite Hac.
    by rewrite (IH Hp0).
Qed.

(** A string with exactly one separator splits around it. *)
Lemma countByte_one (c : ascii) (s : string) :
  countByte c s = 1%nat →
  ∃ p0 p1, s = p0 +:+ String c p1
           ∧ countByte c p0 = O ∧ countByte c p1 = O.
Proof.
  induction s as [|a s IH]; [discriminate|].
  cbn [countByte]. destruct (Ascii.eqb a c) eqn:Hac.
  - intros Hs. apply Ascii.eqb_eq in Hac as ->.
    exists "", s. split; [reflexivity|]. split; [reflexivity|lia].
  - intros Hs. destruct (IH Hs) as (p0 & p1 & -> & H0 & H1).
    exists (String a p0), p1. rewrite app_cons.
    split; [reflexivity|]. split; [|assumption].
    cbn [countByte]. by rewrite Hac.
Qed.

Lemma countByte_app (c : ascii) (a b : string) :
  countByte c (a +:+ b) = (countByte c a + countByte c b)%nat.
Proof.
  induction a as [|x a IH]; [reflexivity|].
  rewrite app_cons. cbn [countByte]. rewrite IH. lia.
Qed.

Lemma mask_email_other (s : string) :
  countByte "@" s ≠ 1%nat → mask_email s = Ok (stars (String.length s)).
Proof.
  intros Hn. unfold mask_email.
  pose proof (Split_length "@" s) as Hlen.
  destruct (Split s "@") as [|p0 [|p1 [|p2 ps]]]; try apply Repeat_len.
  cbn in Hlen. lia.
Qed.

Lemma mask_email_one (p0 p1 : string) :
  countByte "@" p0 = O → countByte "@" p1 = O →
  mask_email (p0 +:+ String "@" p1) =
    match p0 with
    | "" => Err GoPanic
    | String a p0' => Ok (String a (stars (String.length p0')) +:+ String "@" p1)
    end.
Proof.
  intros H0 H1. unfold mask_email.
  rewrite (Split_at _ _ _ H0), (Split_none _ _ H1).
  destruct p0 as [|a p0']; [reflexivity|].
  rewrite (slice_prefix (String a p0') 1)
    by (unfold len; cbn [String.length]; lia).
  rewrite bind_Ok. unfold len. cbn [String.length].
  rewrite Repeat_stars by lia. rewrite bind_Ok.
  replace (Z.to_nat (Z.of_nat (S (String.length p0')) - 1))
    with (String.length p0') by lia.
  reflexivity.
Qed.

End Email.

(** X1.  The email strategy on every input: with exactly one ['@'] and a
    non-empty part before it, the first byte is kept, the rest of that part
    becomes asterisks and ['@'] and the domain are kept, so the length is
    kept too; with no ['@'] or more than one, every byte becomes an
    asterisk. *)
Theorem email_rule (s : string) :
  (countByte "@" s ≠ 1%nat → mask_email s = Ok (stars (String.length s)))
  ∧ (∀ (a : ascii) (local domain : string),
       s = String a local +:+ String "@" domain →
       countByte "@" (String a local) = O →
       countByte "@" domain = O →
       mask_email s
       = Ok (String a (stars (String.length local)) +:+ String "@" domain)
       ∧ String.length (String a (stars (String.length local))
                        +:+ String "@" domain)
         = String.length s).
Proof.
  split; [apply mask_email_other|].
  intros a local domain -> Hl Hd. split.
  - by rewrite (mask_email_one _ _ Hl Hd).
  - rewrite !length_app. cbn [String.length]. by rewrite length_stars.
Qed.

Lemma email_rule_witness :
  countByte "@" "no at sign" ≠ 1%nat
  ∧ mask_email "no at sign" = Ok "**********"
  ∧ mask_email "a@b@c" = Ok "*****"
  ∧ mask_email "john.doe@example.com" = Ok "j*******@example.com".
Proof.
  assert (H0 : countByte "@" "no at sign" ≠ 1%nat) by discriminate.
  assert (H2 : countByte "@" "a@b@c" ≠ 1%nat) by discriminate.
  split; [exact H0|].
  split; [exact (proj1 (email_rule "no at sign") H0)|].
  split; [exact (proj1 (email_rule "a@b@c") H2)|].
  exact (proj1 (proj2 (email_rule "john.doe@example.com")
                  "j"%char "ohn.doe" "example.com" eq_refl eq_refl eq_refl)).
Defined.

(** X2.  The email strategy panics on exactly the inputs that consist of an
    ['@'] followed by a part without ['@']; on every other input it
    returns. *)
Theorem email_panics_iff (s : string) :
  mask_email s = Err GoPanic
  ↔ ∃ domain, s = String "@" domain ∧ countByte "@" domain = O.
Proof.
  split.
  - intros Hpanic.
    destruct (decide (countByte "@" s = 1%nat)) as [H1|H1].
    + destruct (countByte_one _ _ H1) as (p0 & p1 & -> & Hp0 & Hp1).
      rewrite (mask_email_one _ _ Hp0 Hp1) in Hpanic.
      destruct p0 as [|a p0]; [|discriminate]. by exists p1.
    + by rewrite (mask_email_other _ H1) in Hpanic.
  - intros (domain & -> & Hd).
    exact (mask_email_one "" domain eq_refl Hd).
Qed.

(** ** Masking twice *)

Section Idempotence.

Lemma firstChars_app (a b : string) :
  firstChars (String.length a) (a +:+ b) = a.
Proof.
  induction a as [|c a IH]; [by destruct b|].
  rewrite app_cons. cbn. by rewrite IH.
Qed.

Lemma dropChars_app (a b : string) :
  dropChars (String.length a) (a +:+ b) = b.
Proof. induction a as [|c a IH]; [reflexivity|]. by rewrite app_cons. Qed.

Lemma lastChars_app (a b : string) :
  lastChars (String.length b) (a +:+ b) = b.
Proof.
  unfold lastChars. rewrite length_app.
  replace (String.length a + String.length b - String.length b)%nat
    with (String.length a) by lia.
  apply dropChars_app.
Qed.

Lemma app_assoc_string (a b c : string) : (a +:+ b) +:+ c = a +:+ b +:+ c.
Proof.
  induction a as [|x a IH]; [reflexivity|]. by rewrite !app_cons, IH.
Qed.

Lemma rule_full_twice (s : string) : rule_full (rule_full s) = rule_full s.
Proof. unfold rule_full. by rewrite length_stars. Qed.

Lemma rule_partial_twice (s : string) :
  rule_partial (rule_partial s) = rule_partial s.
Proof.
  pose proof (length_rule_partial s) as Hlen.
  unfold rule_partial at 1. rewrite Hlen.
  unfold rule_partial in *.
  destruct (Nat.ltb_spec 4 (String.length s)) as [Hn|Hn];
    [|reflexivity].
  assert (H2 : String.length (firstChars 2 s) = 2%nat)
    by (rewrite length_firstChars; lia).
  assert (H2' : String.length (lastChars 2 s) = 2%nat)
    by (apply length_lastChars; lia).
  f_equal; [|f_equal].
  - rewrite <- H2 at 1. apply firstChars_app.
  - rewrite <- app_assoc_string. rewrite <- H2' at 1. apply lastChars_app.
Qed.

Lemma rule_last4_twice (s : string) :
  rule_last4 (rule_last4 s) = rule_last4 s.
Proof.
  pose proof (length_rule_last4 s) as Hlen.
  unfold rule_last4 at 1. rewrite Hlen.
  unfold rule_last4 in *.
  destruct (Nat.ltb_spec 4 (String.length s)) as [Hn|Hn];
    [|reflexivity].
  assert (H4 : String.length (lastChars 4 s) = 4%nat)
    by (apply length_lastChars; lia).
  f_equal. rewrite <- H4 at 1. apply lastChars_app.
Qed.

Lemma rule_dob_twice (s : string) : rule_dob (rule_dob s) = rule_dob s.
Proof.
  pose proof (length_rule_dob s) as Hlen.
  unfold rule_dob at 1. rewrite Hlen.
  unfold rule_dob in *.
  destruct (Nat.eqb_spec (String.length s) 10) as [Hn|Hn];
    [|reflexivity].
  assert (H2 : String.length (lastChars 2 s) = 2%nat)
    by (apply length_lastChars; lia).
  f_equal. rewrite <- H2 at 1. apply lastChars_app.
Qed.

End Idempotence.

(** X3.  Applying a table strategy (full, password, token, partial, phone,
    creditcard, dob, none) to its own output changes nothing: each of them
    returns on every input, and returns its input when that input is
    already one of its outputs. *)
Theorem builtin_strategies_idempotent (s : string) :
  Forall (λ name, ∃ r, applyStrategy maskRegistry name s = Some (Ok r)
                       ∧ applyStrategy maskRegistry name r = Some (Ok r))
         tableNames.
Proof.
  destruct maskRegistry_builtin
    as (Hpartial & Hfull & Hphone & Hcc & Hdob & Hpw & Htok & Hnone & _).
  unfold tableNames, applyStrategy.
  repeat apply Forall_cons_2; try apply Forall_nil_2.
  - rewrite Hfull. cbn. exists (rule_full s).
    by rewrite !mask_full_rule, rule_full_twice.
  - rewrite Hpw. cbn. unfold mask_password. exists (rule_full s).
    by rewrite !Repeat_len, rule_full_twice.
  - rewrite Htok. cbn. unfold mask_token. exists (rule_full s).
    by rewrite !Repeat_len, rule_full_twice.
  - rewrite Hpartial. cbn. exists (rule_partial s).
    by rewrite !mask_partial_rule, rule_partial_twice.
  - rewrite Hphone. cbn. exists (rule_last4 s).
    by rewrite !mask_phone_rule, rule_last4_twice.
  - rewrite Hcc. cbn. exists (rule_last4 s).
    by rewrite !mask_creditcard_rule, rule_last4_twice.
  - rewrite Hdob. cbn. exists (rule_dob s).
    by rewrite !mask_dob_rule, rule_dob_twice.
  - rewrite Hnone. cbn. by exists s.
Qed.

(** ** Values reached by copy, and tags that resolve to nothing *)

Section Copies.

Variable reg : Registry.

Lemma foldM_skip {A : Type} (f : A → heap → res heap) (l : list A) (h : heap) :
  (∀ a, a ∈ l → f a h = Ok h) → foldM f l h = Ok h.
Proof.
  induction l as [|a l IH]; intros Hskip; [reflexivity|].
  rewrite foldM_cons, (Hskip a) by apply list_elem_of_here.
  rewrite bind_Ok. apply IH. intros b Hb. apply Hskip.
  by apply list_elem_of_further.
Qed.

(** No field of a struct held by copy can be set. *)
Lemma maskField_copy (overrides : MaskOverrides)
    (recurse : rvalue → heap → res heap) (v : gval)
    (fld : nat * StructField) (h : heap) :
  maskField reg overrides recurse (RCopy v) fld h = Ok h.
Proof.
  unfold maskField, Field. by destruct (sub v [fld.1]).
Qed.

Lemma maskValue_copy_struct (overrides : MaskOverrides) (n : nat)
    (fs : list (StructField * gval)) (h : heap) :
  maskValue reg (S n) overrides (RCopy (VStruct fs)) h = Ok h.
Proof.
  cbn [maskValue IsValid negb read indirect]. rewrite !bind_Ok.
  cbn [maskKind]. apply foldM_skip. intros fld _. apply maskField_copy.
Qed.

(** Values of the kinds [maskValue] has no case for, and strings that are
    not struct fields, are leaves. *)
Lemma maskValue_leaf (overrides : MaskOverrides) (n : nat) (rv : rvalue)
    (v : gval) (h : heap) :
  read h rv = Ok v →
  match v with
  | VString _ | VScalar _ | VPtr None | VSlice None => True
  | _ => False
  end →
  maskValue reg (S n) overrides rv h = Ok h.
Proof.
  intros Hread Hleaf. cbn [maskValue].
  destruct rv as [|w|l p]; [reflexivity| |]; cbn [IsValid negb];
    rewrite Hread, bind_Ok;
    destruct v as [s|z|[[l' p']|]| | |[b|]|]; try done;
    cbn [indirect]; by rewrite Hread, bind_Ok.
Qed.

End Copies.

(** X4.  A struct that [maskValue] reaches by copy is left as it is,
    whatever its tags and the override set: passing a struct (not a pointer
    to it) to [Mask] or [MaskWithOverrides] changes nothing, and neither
    does visiting a map all of whose values are structs held by value. *)
Theorem struct_by_value_is_not_masked (reg : Registry)
    (overrides : MaskOverrides) (n : nat) (h : heap) :
  (∀ fs, Mask reg (S n) (Some (VStruct fs)) h = Ok h
         ∧ MaskWithOverrides reg (S n) (Some (VStruct fs)) overrides h = Ok h)
  ∧ (∀ (rv : rvalue) (kvs : list (string * gval)),
       read h rv = Ok (VMap kvs) →
       Forall (λ kv, ∃ fs, kv.2 = VStruct fs) kvs →
       maskValue reg (S (S n)) overrides rv h = Ok h).
Proof.
  split.
  - intros fs. split; apply maskValue_copy_struct.
  - intros rv kvs Hread Hkvs.
    cbn [maskValue].
    destruct rv as [|w|l p]; [discriminate| |]; cbn [IsValid negb];
      rewrite Hread, bind_Ok; cbn [indirect]; rewrite Hread, bind_Ok;
      cbn [maskKind]; apply foldM_skip; intros kv Hkv;
      apply (proj1 (Forall_forall _ _) Hkvs) in Hkv as [fs ->];
      apply maskValue_copy_struct.
Qed.

Lemma struct_by_value_is_not_masked_witness :
  read [holderT "a" "b"] (RVar 0 [0%nat]) = Ok (VMap [("k", innerT "a")])
  ∧ Forall (λ kv : string * gval, ∃ fs, kv.2 = VStruct fs) [("k", innerT "a")]
  ∧ maskValue maskRegistry 2 ∅ (RVar 0 [0%nat]) [holderT "a" "b"]
    = Ok [holderT "a" "b"].
Proof.
  assert (Hread : read [holderT "a" "b"] (RVar 0 [0%nat])
                  = Ok (VMap [("k", innerT "a")])) by reflexivity.
  assert (Hkvs : Forall (λ kv : string * gval, ∃ fs, kv.2 = VStruct fs)
                        [("k", innerT "a")]).
  { apply Forall_cons_2; [|apply Forall_nil_2]. by eexists. }
  split; [exact Hread|]. split; [exact Hkvs|].
  exact (proj2 (struct_by_value_is_not_masked maskRegistry ∅ 0
                  [holderT "a" "b"]) (RVar 0 [0%nat]) _ Hread Hkvs).
Defined.

(** X5.  A settable string field with no applicable override entry whose
    mask tag names no registered strategy (the tag is empty or absent, has
    no [strategy:] segment, or names only unknown strategies) is left
    unmodified, and nothing panics. *)
Theorem unresolved_tag_leaves_field (reg : Registry)
    (overrides : MaskOverrides) (n : nat) (l : loc) (p : path) (i : nat)
    (field : StructField) (s : string) (h : heap) :
  load h l (p ++ [i]) = Some (VString s) →
  exported field = true →
  overrideDecision reg overrides (Name field) = None →
  tagTransforms reg (maskTag field) = [] →
  maskField reg overrides (maskValue reg (S n) overrides) (RVar l p)
            (i, field) h = Ok h.
Proof.
  intros Hld Hexp Hov Htag.
  destruct (decide (maskTag field = "")) as [Hempty|Hempty].
  - unfold maskField. cbn [fst snd Field CanSet read].
    rewrite Hexp, Hld. cbn [negb]. rewrite bind_Ok.
    assert (Hdef : tagDefault reg (maskValue reg (S n) overrides) field
                     (RVar l (p ++ [i])) (VString s) h = Ok h).
    { unfold tagDefault. rewrite bool_decide_eq_false_2 by tauto.
      cbn [andb]. apply (maskValue_leaf reg _ _ _ (VString s)); [|done].
      cbn [read]. by rewrite Hld. }
    unfold overrideDecision in Hov.
    destruct (overrides !! Name field) as [strategy|]; [|exact Hdef].
    case_bool_decide; [discriminate|].
    destruct (reg !! strategy); [discriminate|exact Hdef].
  - rewrite (maskField_tag reg overrides _ l p i field s h Hld Hexp Hempty Hov).
    rewrite Htag. cbn [composeAll]. rewrite bind_Ok. unfold SetString.
    by rewrite (store_load_id _ _ _ _ Hld).
Qed.

Lemma unresolved_tag_leaves_field_witness :
  let field := exportedField "Name" "group:PII;strategy:nosuch" in
  let h := [VStruct [(field, VString "John")]] in
  load h 0 ([] ++ [0%nat]) = Some (VString "John")
  ∧ exported field = true
  ∧ overrideDecision maskRegistry {["Name" := "bogus"]} (Name field) = None
  ∧ tagTransforms maskRegistry (maskTag field) = []
  ∧ maskField maskRegistry {["Name" := "bogus"]}
      (maskValue maskRegistry 1 {["Name" := "bogus"]}) (RVar 0 []) (0%nat, field) h
    = Ok h.
Proof.
  intros field h.
  assert (Hld : load h 0 ([] ++ [0%nat]) = Some (VString "John")) by reflexivity.
  assert (Hov : overrideDecision maskRegistry {["Name" := "bogus"]} (Name field)
                = None) by reflexivity.
  assert (Htag : tagTransforms maskRegistry (maskTag field) = []) by reflexivity.
  split; [exact Hld|]. split; [reflexivity|]. split; [exact Hov|].
  split; [exact Htag|].
  exact (unresolved_tag_leaves_field maskRegistry {["Name" := "bogus"]} 0
           0 [] 0 field "John" h Hld eq_refl Hov Htag).
Defined.

(** ** What masking may rewrite *)

Section Erasure.

Variable keep : StructField → bool.

Lemma erase_struct (fs : list (StructField * gval)) :
  erase keep (VStruct fs)
  = VStruct ((λ fv, (fv.1, eraseIn keep fv.1 fv.2)) <$> fs).
Proof.
  cbn [erase]. f_equal. apply list_fmap_ext. by intros j [f w] _.
Qed.

Lemma erase_array (es : list gval) :
  erase keep (VArray es) = VArray (erase keep <$> es).
Proof. reflexivity. Qed.

Lemma fieldAt_string (s : string) (p : path) (i : nat) :
  fieldAt (VString s) p i = None.
Proof. unfold fieldAt. by destruct p. Qed.

Lemma fieldAt_cons_struct (fs : list (StructField * gval)) (j : nat)
    (p : path) (i : nat) :
  fieldAt (VStruct fs) (j :: p) i
  = match fs !! j with
    | Some fv => fieldAt fv.2 p i
    | None => None
    end.
Proof. unfold fieldAt. cbn [sub]. by destruct (fs !! j). Qed.

Lemma fieldAt_cons_array (es : list gval) (j : nat) (p : path) (i : nat) :
  fieldAt (VArray es) (j :: p) i
  = match es !! j with
    | Some e => fieldAt e p i
    | None => None
    end.
Proof. unfold fieldAt. cbn [sub]. by destruct (es !! j). Qed.

Lemma fieldAt_erase (p : path) (i : nat) : ∀ v : gval,
  fieldAt (erase keep v) p i = fieldAt v p i.
Proof.
  induction p as [|j p IH]; intros v.
  - destruct v; try reflexivity.
    rewrite erase_struct. unfold fieldAt. cbn [sub].
    rewrite list_lookup_fmap. by destruct (fs !! i).
  - destruct v; try reflexivity.
    + rewrite erase_struct, !fieldAt_cons_struct, list_lookup_fmap.
      destruct (fs !! j) as [[f w]|]; [|reflexivity]. cbn.
      destruct w; cbn [eraseIn]; try apply IH.
      destruct (keep f); by rewrite !fieldAt_string.
    + rewrite erase_array, !fieldAt_cons_array, list_lookup_fmap.
      destruct (es !! j) as [e|]; [|reflexivity]. apply IH.
Qed.

(** A value that has a field somewhere below is not a string, and stays
    a non-string when a part of it is replaced. *)
Lemma eraseIn_inner (f : StructField) (w w' : gval) (q : path) (x : gval)
    (j : nat) (q' : path) :
  upd w (j :: q') x = Some w' →
  eraseIn keep f w = erase keep w ∧ eraseIn keep f w' = erase keep w'.
Proof.
  cbn [upd]. destruct w; try discriminate.
  - destruct (fs !! j) as [fv|]; [|discriminate]. cbn.
    destruct (upd fv.2 q' x); [|discriminate]. by intros [= <-].
  - destruct (es !! j) as [e|]; [|discriminate]. cbn.
    destruct (upd e q' x); [|discriminate]. by intros [= <-].
Qed.

Lemma erase_upd (i : nat) (f : StructField) (s s' : string) (p : path) :
  ∀ v v' : gval,
    fieldAt v p i = Some f → keep f = false →
    sub v (p ++ [i]) = Some (VString s) →
    upd v (p ++ [i]) (VString s') = Some v' →
    erase keep v' = erase keep v.
Proof.
  induction p as [|j p IH]; intros v v' Hf Hk Hsub Hupd.
  - unfold fieldAt in Hf. cbn in Hf, Hsub, Hupd.
    destruct v; try discriminate.
    destruct (fs !! i) as [[f0 w]|] eqn:Hi; [|discriminate].
    cbn in Hf, Hsub, Hupd. injection Hf as ->. injection Hsub as ->.
    injection Hupd as <-.
    rewrite !erase_struct, list_fmap_insert. f_equal.
    apply list_insert_id. rewrite list_lookup_fmap, Hi. cbn.
    by rewrite Hk.
  - change ((j :: p) ++ [i]) with (j :: (p ++ [i])) in *.
    destruct v; try discriminate.
    + rewrite fieldAt_cons_struct in Hf. cbn [sub upd] in Hsub, Hupd.
      destruct (fs !! j) as [[f0 w]|] eqn:Hj; [|discriminate].
      cbn in Hf, Hsub, Hupd.
      destruct (upd w (p ++ [i]) (VString s')) as [w'|] eqn:Hw; [|discriminate].
      injection Hupd as <-.
      rewrite !erase_struct, list_fmap_insert. f_equal.
      apply list_insert_id. rewrite list_lookup_fmap, Hj. cbn. f_equal.
      assert (Hin : eraseIn keep f0 w = erase keep w
                    ∧ eraseIn keep f0 w' = erase keep w').
      { destruct (p ++ [i]) as [|k q] eqn:Hpq; [by destruct p|].
        by eapply (eraseIn_inner f0 w w' q). }
      destruct Hin as [-> ->]. f_equal. symmetry. by eapply IH.
    + rewrite fieldAt_cons_array in Hf. cbn [sub upd] in Hsub, Hupd.
      destruct (es !! j) as [e|] eqn:Hj; [|discriminate].
      cbn in Hf, Hsub, Hupd.
      destruct (upd e (p ++ [i]) (VString s')) as [e'|] eqn:He; [|discriminate].
      injection Hupd as <-.
      rewrite !erase_array, list_fmap_insert. f_equal.
      apply list_insert_id. rewrite list_lookup_fmap, Hj. cbn. f_equal.
      symmetry. by eapply IH.
Qed.

Lemma store_erase (h h' : heap) (l : loc) (p : path) (i : nat)
    (f : StructField) (s s' : string) :
  fieldOf h l p i = Some f → keep f = false →
  load h l (p ++ [i]) = Some (VString s) →
  store h l (p ++ [i]) (VString s') = Some h' →
  erase keep <$> h' = erase keep <$> h.
Proof.
  unfold fieldOf, load, store, loc in *. intros Hf Hk Hld Hst.
  destruct (h !! l) as [c|] eqn:Hl; [|discriminate]. cbn in Hf, Hld, Hst.
  destruct (upd c (p ++ [i]) (VString s')) as [c'|] eqn:Hc; [|discriminate].
  injection Hst as <-.
  rewrite list_fmap_insert. apply list_insert_id.
  rewrite list_lookup_fmap, Hl. cbn. f_equal. symmetry. by eapply erase_upd.
Qed.

Lemma fieldOf_erase (h h1 : heap) (l : loc) (p : path) (i : nat) :
  erase keep <$> h1 = erase keep <$> h →
  fieldOf h1 l p i = fieldOf h l p i.
Proof.
  intros Heq. unfold fieldOf, loc in *.
  assert (Hl : erase keep <$> (h1 !! l) = erase keep <$> (h !! l))
    by (by rewrite <- !list_lookup_fmap, Heq).
  destruct (h1 !! l) as [c1|], (h !! l) as [c|]; try discriminate;
    [|reflexivity].
  cbn in *. injection Hl as Hc.
  by rewrite <- (fieldAt_erase p i c1), Hc, fieldAt_erase.
Qed.

Lemma enumerateFrom_lookup {A : Type} (l : list A) : ∀ (k i : nat) (a : A),
  (i, a) ∈ enumerateFrom k l → (k ≤ i)%nat ∧ l !! (i - k)%nat = Some a.
Proof.
  induction l as [|b l IH]; intros k i a Hin; cbn in Hin.
  - by apply elem_of_nil in Hin.
  - apply elem_of_cons in Hin as [[= -> ->]|Hin].
    + split; [lia|]. by rewrite Nat.sub_diag.
    + apply IH in Hin as [Hle Hlk]. split; [lia|].
      replace (i - k)%nat with (S (i - S k)) by lia. exact Hlk.
  Qed.

Lemma fieldOf_read (h : heap) (l : loc) (p : path)
    (fs : list (StructField * gval)) (i : nat) (f : StructField) :
  read h (RVar l p) = Ok (VStruct fs) →
  (i, f) ∈ enumerateFrom 0 fs.*1 →
  fieldOf h l p i = Some f.
Proof.
  cbn [read]. unfold fieldOf, load, fieldAt. intros Hread Hin.
  destruct (h !! l) as [c|]; [|discriminate]. cbn in *.
  destruct (sub c p) as [v|]; [|discriminate]. injection Hread as ->.
  apply enumerateFrom_lookup in Hin as [_ Hi].
  rewrite Nat.sub_0_r, list_lookup_fmap in Hi. exact Hi.
Qed.

(** Erasures that agree hide the same strings in the fields kept. *)
Lemma erase_keeps (i : nat) (f : StructField) (s : string) (p : path) :
  ∀ c c' : gval,
    erase keep c' = erase keep c →
    fieldAt c p i = Some f → keep f = true →
    sub c (p ++ [i]) = Some (VString s) →
    sub c' (p ++ [i]) = Some (VString s).
Proof.
  induction p as [|j p IH]; intros c c' Heq Hf Hk Hsub.
  - unfold fieldAt in Hf. cbn in Hf, Hsub |- *.
    destruct c; try discriminate.
    destruct (fs !! i) as [[f0 w]|] eqn:Hi; [|discriminate].
    cbn in Hf, Hsub. injection Hf as ->. injection Hsub as ->.
    destruct c'; try discriminate.
    rewrite !erase_struct in Heq. injection Heq as Heq.
    apply (f_equal (λ l, l !! i)) in Heq.
    rewrite !list_lookup_fmap, Hi in Heq. cbn in Heq. rewrite Hk in Heq.
    destruct (fs0 !! i) as [[f' w']|]; [|discriminate]. cbn in Heq.
    injection Heq as -> Hw. cbn.
    destruct w'; cbn in Hw; try discriminate.
    rewrite Hk in Hw. congruence.
  - change ((j :: p) ++ [i]) with (j :: (p ++ [i])) in *.
    destruct c; try discriminate.
    + rewrite fieldAt_cons_struct in Hf. cbn [sub] in Hsub |- *.
      destruct (fs !! j) as [[f0 w]|] eqn:Hj; [|discriminate].
      cbn in Hf, Hsub.
      destruct c'; try discriminate.
      rewrite !erase_struct in Heq. injection Heq as Heq.
      apply (f_equal (λ l, l !! j)) in Heq.
      rewrite !list_lookup_fmap, Hj in Heq. cbn in Heq.
      destruct (fs0 !! j) as [[f' w']|]; [|discriminate]. cbn in *.
      injection Heq as -> Hw.
      apply (IH w w'); try assumption.
      destruct w; try (by rewrite fieldAt_string in Hf);
        try (by unfold fieldAt in Hf; destruct p);
        destruct w'; cbn [eraseIn] in Hw; try exact Hw;
        destruct (keep f0); rewrite ?erase_struct, ?erase_array in Hw;
        discriminate Hw.
    + rewrite fieldAt_cons_array in Hf. cbn [sub] in Hsub |- *.
      destruct (es !! j) as [e|] eqn:Hj; [|discriminate].
      cbn in Hf, Hsub.
      destruct c'; try discriminate.
      rewrite !erase_array in Heq. injection Heq as Heq.
      apply (f_equal (λ l, l !! j)) in Heq.
      rewrite !list_lookup_fmap, Hj in Heq. cbn in Heq.
      destruct (es0 !! j) as [e'|]; [|discriminate]. cbn in *.
      injection Heq as He. by apply (IH e e').
Qed.

End Erasure.

Section ErasureInvariant.

Variable reg : Registry.
Variable overrides : MaskOverrides.
Variable keep : StructField → bool.

(** [keep] holds only of fields [maskValue] does not write. *)
Hypothesis keep_protected :
  ∀ f, keep f = true → protectedField overrides f = true.

Lemma SetString_erase (h h' : heap) (l : loc) (p : path) (i : nat)
    (f : StructField) (s s' : string) :
  fieldOf h l p i = Some f → keep f = false →
  load h l (p ++ [i]) = Some (VString s) →
  SetString (RVar l (p ++ [i])) s' h = Ok h' →
  erase keep <$> h' = erase keep <$> h.
Proof.
  intros Hf Hk Hld. unfold SetString.
  destruct (store h l (p ++ [i]) (VString s')) as [h1|] eqn:Hst;
    [|discriminate].
  intros [= <-]. by eapply store_erase.
Qed.

Lemma applyTo_erase (fn : MaskFunc) (h h' : heap) (l : loc) (p : path)
    (i : nat) (f : StructField) :
  fieldOf h l p i = Some f → keep f = false →
  applyTo fn (RVar l (p ++ [i])) h = Ok h' →
  erase keep <$> h' = erase keep <$> h.
Proof.
  intros Hf Hk. unfold applyTo. cbn [read].
  destruct (load h l (p ++ [i])) as [cur|] eqn:Hld; [|discriminate].
  rewrite bind_Ok. destruct cur; try discriminate.
  destruct (fn s) as [s'|e]; [|discriminate]. rewrite bind_Ok.
  apply (SetString_erase h h' l p i f s s' Hf Hk Hld).
Qed.

Lemma foldM_tagPart_erase (parts : list string) (h h' : heap) (l : loc)
    (p : path) (i : nat) (f : StructField) :
  fieldOf h l p i = Some f → keep f = false →
  foldM (tagPart reg (RVar l (p ++ [i]))) parts h = Ok h' →
  erase keep <$> h' = erase keep <$> h.
Proof.
  intros Hf Hk.
  apply (foldM_inv (λ h1, erase keep <$> h1 = erase keep <$> h));
    [|reflexivity].
  intros part h1 h2 _ Hh1. rewrite tagPart_segment.
  destruct (segmentTransform reg part) as [fn|]; [|by intros [= <-]].
  intros Hrun. rewrite <- Hh1.
  eapply applyTo_erase; [|exact Hk|exact Hrun].
  by rewrite (fieldOf_erase keep h h1).
Qed.

Lemma maskField_erase (rec : rvalue → heap → res heap) (rv : rvalue)
    (i : nat) (f : StructField) (h h' : heap) :
  (∀ rv1 h1 h2, rec rv1 h1 = Ok h2 → erase keep <$> h2 = erase keep <$> h1) →
  (∀ l p, rv = RVar l p → fieldOf h l p i = Some f) →
  maskField reg overrides rec rv (i, f) h = Ok h' →
  erase keep <$> h' = erase keep <$> h.
Proof.
  intros Hrec Hfield. unfold maskField. cbn [fst snd].
  destruct rv as [|v|l p]; cbn [Field CanSet negb];
    [by intros [= <-]|by destruct (sub v [i]); intros [= <-]|].
  destruct (exported f) eqn:Hexp; cbn [negb]; [|by intros [= <-]].
  destruct (read h (RVar l (p ++ [i]))) as [cur|e]; [|discriminate].
  rewrite bind_Ok.
  specialize (Hfield l p eq_refl).
  assert (Htag : overrides !! Name f ≠ Some "none" →
                 tagDefault reg rec f (RVar l (p ++ [i])) cur h = Ok h' →
                 erase keep <$> h' = erase keep <$> h).
  { intros Hnone. unfold tagDefault.
    destruct (bool_decide (maskTag f ≠ "") && isString cur); [|apply Hrec].
    apply foldM_tagPart_erase with f; [assumption|].
    destruct (keep f) eqn:Hk; [|reflexivity].
    apply keep_protected in Hk. unfold protectedField in Hk.
    rewrite Hexp in Hk. cbn in Hk. by apply bool_decide_eq_true in Hk. }
  destruct (overrides !! Name f) as [strategy|] eqn:Hov; [|by apply Htag].
  case_bool_decide as Hs; [by intros [= <-]|].
  assert (Hnone : Some strategy ≠ Some "none") by congruence.
  destruct (reg !! strategy) as [fn|]; [|by apply Htag].
  destruct (isString cur); [|by apply Htag].
  apply applyTo_erase with f; [assumption|].
  destruct (keep f) eqn:Hk; [|reflexivity].
  apply keep_protected in Hk. unfold protectedField in Hk.
  rewrite Hexp, Hov in Hk. cbn in Hk. apply bool_decide_eq_true in Hk.
  congruence.
Qed.

Lemma maskKind_erase (rec : rvalue → heap → res heap) (rv : rvalue)
    (v : gval) (h h' : heap) :
  (∀ rv1 h1 h2, rec rv1 h1 = Ok h2 → erase keep <$> h2 = erase keep <$> h1) →
  read h rv = Ok v →
  maskKind reg overrides rec rv v h = Ok h' →
  erase keep <$> h' = erase keep <$> h.
Proof.
  intros Hrec Hread.
  assert (Hloop : ∀ (A : Type) (g : A → rvalue) (l : list A),
             foldM (λ a, rec (g a)) l h = Ok h' →
             erase keep <$> h' = erase keep <$> h).
  { intros A g l.
    apply (foldM_inv (λ h1, erase keep <$> h1 = erase keep <$> h));
      [|reflexivity].
    intros a h1 h2 _ Hh1 Hrun. rewrite <- Hh1. by eapply Hrec. }
  unfold maskKind. destruct v; try (by intros [= <-]).
  - apply (foldM_inv (λ h1, erase keep <$> h1 = erase keep <$> h));
      [|reflexivity].
    intros [i f] h1 h2 Hin Hh1 Hrun. rewrite <- Hh1.
    eapply maskField_erase; [exact Hrec| |exact Hrun].
    intros l p ->. rewrite (fieldOf_erase keep h h1) by assumption.
    by eapply fieldOf_read.
  - apply (Hloop nat (Field rv)).
  - destruct backing as [l|]; [|by intros [= <-]].
    destruct (read h (RVar l [])) as [b|e]; [|discriminate].
    rewrite bind_Ok. destruct b; try discriminate.
    apply (Hloop nat (λ i, RVar l [i])).
  - apply (Hloop _ (λ kv : string * gval, RCopy kv.2)).
Qed.

Lemma maskValue_erase (fuel : nat) : ∀ (rv : rvalue) (h h' : heap),
  maskValue reg fuel overrides rv h = Ok h' →
  erase keep <$> h' = erase keep <$> h.
Proof.
  induction fuel as [|n IH]; intros rv h h'; cbn [maskValue];
    [discriminate|].
  destruct (negb (IsValid rv)); [by intros [= <-]|].
  destruct (read h rv) as [v|e]; [|discriminate]. rewrite bind_Ok. cbn zeta.
  destruct (read h (indirect rv v)) as [v'|e] eqn:Hread; [|discriminate].
  rewrite bind_Ok. by apply maskKind_erase.
Qed.

End ErasureInvariant.

(** X6.  A traversal rewrites nothing but strings that are directly the
    value of a struct field: when [maskValue] returns, the store has as
    many variables as before and each has the shape it had (the same
    fields with their names and tags, the same elements, the same scalars,
    pointers, slices and maps, and the same strings outside struct
    fields, such as the elements of a [[]string]). *)
Theorem masking_preserves_shape (reg : Registry) (overrides : MaskOverrides)
    (fuel : nat) (rv : rvalue) (h h' : heap) :
  maskValue reg fuel overrides rv h = Ok h' →
  shape <$> h' = shape <$> h ∧ length h' = length h.
Proof.
  intros Hrun.
  assert (Hshape : shape <$> h' = shape <$> h).
  { unfold shape. eapply maskValue_erase; [|exact Hrun]. discriminate. }
  split; [exact Hshape|].
  by rewrite <- (length_fmap shape h'), Hshape, length_fmap.
Qed.

Lemma masking_preserves_shape_witness :
  maskValue maskRegistry 3 ∅ (RCopy (addr 0)) [parentT "Ann" 1; innerT "hunter2"]
    = Ok [parentT "***" 1; innerT "*******"]
  ∧ shape <$> [parentT "***" 1; innerT "*******"]
    = shape <$> [parentT "Ann" 1; innerT "hunter2"].
Proof.
  assert (Hrun : maskValue maskRegistry 3 ∅ (RCopy (addr 0))
                   [parentT "Ann" 1; innerT "hunter2"]
                 = Ok [parentT "***" 1; innerT "*******"]) by reflexivity.
  split; [exact Hrun|].
  exact (proj1 (masking_preserves_shape maskRegistry ∅ 3 (RCopy (addr 0))
                  _ _ Hrun)).
Defined.

(** X7.  A string held by a struct field that is unexported, or whose name
    the override set maps to ["none"], is never changed by a traversal,
    wherever the field sits and however the traversal reaches its struct. *)
Theorem protected_field_keeps_string (reg : Registry)
    (overrides : MaskOverrides) (fuel : nat) (rv : rvalue) (h h' : heap)
    (l : loc) (p : path) (i : nat) (f : StructField) (s : string) :
  maskValue reg fuel overrides rv h = Ok h' →
  fieldOf h l p i = Some f →
  protectedField overrides f = true →
  load h l (p ++ [i]) = Some (VString s) →
  load h' l (p ++ [i]) = Some (VString s).
Proof.
  intros Hrun Hf Hprot Hld.
  pose proof (maskValue_erase reg overrides (protectedField overrides)
                (λ _ H, H) fuel rv h h' Hrun) as Heq.
  unfold fieldOf, load, loc in *.
  assert (Hl : erase (protectedField overrides) <$> (h' !! l)
               = erase (protectedField overrides) <$> (h !! l))
    by (by rewrite <- !list_lookup_fmap, Heq).
  destruct (h !! l) as [c|]; [|discriminate].
  destruct (h' !! l) as [c'|]; [|discriminate].
  cbn in *. injection Hl as Hc. by eapply erase_keeps.
Qed.

Lemma protected_field_keeps_string_witness :
  let h := [parentT "Ann" 1; innerT "hunter2"] in
  let overrides : MaskOverrides := {["Secret" := "none"]} in
  maskValue maskRegistry 3 overrides (RCopy (addr 0)) h
    = Ok [parentT "***" 1; innerT "hunter2"]
  ∧ fieldOf h 1 [] 0 = Some (exportedField "Secret" "strategy:full")
  ∧ protectedField overrides (exportedField "Secret" "strategy:full") = true
  ∧ load h 1 ([] ++ [0%nat]) = Some (VString "hunter2")
  ∧ load [parentT "***" 1; innerT "hunter2"] 1 ([] ++ [0%nat])
    = Some (VString "hunter2").
Proof.
  intros h overrides.
  assert (Hrun : maskValue maskRegistry 3 overrides (RCopy (addr 0)) h
                 = Ok [parentT "***" 1; innerT "hunter2"]) by reflexivity.
  assert (Hf : fieldOf h 1 [] 0 = Some (exportedField "Secret" "strategy:full"))
    by reflexivity.
  assert (Hp : protectedField overrides (exportedField "Secret" "strategy:full")
               = true) by reflexivity.
  assert (Hld : load h 1 ([] ++ [0%nat]) = Some (VString "hunter2"))
    by reflexivity.
  split; [exact Hrun|]. split; [exact Hf|]. split; [exact Hp|].
  split; [exact Hld|].
  exact (protected_field_keeps_string maskRegistry overrides 3 (RCopy (addr 0))
           h _ 1 [] 0 _ "hunter2" Hrun Hf Hp Hld).
Defined.

(** X8.  When [MaskCopy] is given a non-nil pointer and returns, it has
    allocated exactly one variable, at a fresh address, and returns a
    pointer to it; that variable has the shape of the pointee, and every
    variable that existed before has the shape it had. *)
Theorem MaskCopy_allocates_one_copy (reg : Registry) (fuel : nat)
    (l : loc) (p : path) (overrides : MaskOverrides) (h h' : heap)
    (r : option gval) :
  MaskCopy reg fuel (Some (VPtr (Some (l, p)))) overrides h = Ok (r, h') →
  ∃ c, load h l p = Some c
       ∧ r = Some (VPtr (Some (length h, [])))
       ∧ length h' = S (length h)
       ∧ shape <$> h' = (shape <$> h) ++ [shape c].
Proof.
  unfold MaskCopy. intros Hrun.
  destruct (load h l p) as [c|]; [|discriminate].
  destruct (maskValue reg fuel overrides
              (RCopy (VPtr (Some (length h, [])))) (h ++ [c]))
    as [h1|e] eqn:Hmask; [|discriminate].
  rewrite bind_Ok in Hrun. injection Hrun as <- <-.
  exists c. split; [reflexivity|]. split; [reflexivity|].
  assert (Hshape : shape <$> h1 = shape <$> (h ++ [c])).
  { unfold shape. eapply maskValue_erase; [|exact Hmask]. discriminate. }
  split.
  - rewrite <- (length_fmap shape h1), Hshape, length_fmap, List.length_app.
    cbn. lia.
  - by rewrite Hshape, fmap_app.
Qed.

Lemma MaskCopy_allocates_one_copy_witness :
  let h := [parentT "Ann" 1; innerT "hunter2"] in
  MaskCopy maskRegistry 2 (Some (VPtr (Some (0%nat, [])))) ∅ h
    = Ok (Some (addr 2), [parentT "Ann" 1; innerT "*******"; parentT "***" 1])
  ∧ ∃ c, load h 0 [] = Some c
         ∧ Some (addr 2) = Some (VPtr (Some (length h, [])))
         ∧ length [parentT "Ann" 1; innerT "*******"; parentT "***" 1]
           = S (length h)
         ∧ shape <$> [parentT "Ann" 1; innerT "*******"; parentT "***" 1]
           = (shape <$> h) ++ [shape c].
Proof.
  intros h.
  assert (Hrun : MaskCopy maskRegistry 2 (Some (VPtr (Some (0%nat, [])))) ∅ h
                 = Ok (Some (addr 2),
                       [parentT "Ann" 1; innerT "*******"; parentT "***" 1]))
    by reflexivity.
  split; [exact Hrun|].
  exact (MaskCopy_allocates_one_copy maskRegistry 2 0 [] ∅ h _ _ Hrun).
Defined.

(** ** The tag-only variant *)

Section TagOnlyFacts.

Lemma TagOnly_maskField_eq (reg : Registry)
    (rec rec' : rvalue → heap → res heap) (rv : rvalue)
    (fld : nat * StructField) (h : heap) :
  rec (Field rv fld.1) h = rec' (Field rv fld.1) h →
  TagOnly.maskField reg rec rv fld h = maskField reg ∅ rec' rv fld h.
Proof.
  intros Hrec. unfold TagOnly.maskField, maskField.
  destruct (negb (CanSet (Field rv fld.1) fld.2)); [reflexivity|].
  destruct (read h (Field rv fld.1)) as [cur|e]; [|reflexivity].
  rewrite !bind_Ok, lookup_empty. unfold tagDefault. by rewrite Hrec.
Qed.

Lemma TagOnly_maskValue_eq (reg : Registry) (fuel : nat) :
  ∀ (rv : rvalue) (h : heap),
    TagOnly.maskValue reg fuel rv h = maskValue reg fuel ∅ rv h.
Proof.
  induction fuel as [|n IH]; intros rv h; [reflexivity|].
  cbn [TagOnly.maskValue maskValue].
  destruct (negb (IsValid rv)); [reflexivity|].
  destruct (read h rv) as [v|e]; [|reflexivity]. rewrite !bind_Ok. cbn zeta.
  destruct (read h (indirect rv v)) as [v'|e]; [|reflexivity].
  rewrite !bind_Ok. unfold maskKind. destruct v'; try reflexivity.
  - apply foldM_ext. intros fld h1. apply TagOnly_maskField_eq, IH.
  - apply foldM_ext. intros i h1. apply IH.
  - destruct backing as [l|]; [|reflexivity].
    destruct (read h (RVar l [])) as [b|e]; [|reflexivity].
    rewrite !bind_Ok. destruct b; try reflexivity.
    apply foldM_ext. intros i h1. apply IH.
  - apply foldM_ext. intros kv h1. apply IH.
Qed.

(** After its [init], the variant's registry gives under every name the
    function the other [init] stores there. *)
Lemma TagOnly_live_init (d : nat) :
  TagOnly.live (S d) TagOnly.maskRegistry = maskRegistry.
Proof.
  apply map_eq. intros name. unfold TagOnly.live. rewrite lookup_fmap.
  unfold TagOnly.maskRegistry, TagOnly.init, TagOnly.RegisterMaskFunc,
    maskRegistry, init.
  cbn zeta. rewrite !lookup_insert.
  repeat match goal with
         | |- context [decide (?a = name)] =>
             destruct (decide (a = name)) as [Hname|_];
             [subst name; reflexivity|]
         end.
  reflexivity.
Qed.

End TagOnlyFacts.

(** X9.  With no override set, the engine does exactly what the tag-only
    [maskValue] does, on every input and for every registry; and with the
    registries their [init]s build, the two [Mask] functions agree: they
    return the same store or fail alike. *)
Theorem Mask_is_tag_only_traversal (reg : Registry) (d fuel : nat)
    (v : option gval) (rv : rvalue) (h : heap) :
  TagOnly.maskValue reg fuel rv h = maskValue reg fuel ∅ rv h
  ∧ TagOnly.Mask TagOnly.maskRegistry (S d) fuel v h
    = Mask maskRegistry fuel v h.
Proof.
  split; [apply TagOnly_maskValue_eq|].
  unfold TagOnly.Mask, Mask. rewrite TagOnly_live_init.
  apply TagOnly_maskValue_eq.
Qed.

(** X10.  In the tag-only variant the group aliases are live: each alias
    closure looks its underlying name up when it is called, so after the
    underlying strategy is registered again with another function, the
    alias applies that new function. *)
Theorem TagOnly_alias_is_live (fn : MaskFunc) (d : nat) (s : string) :
  Forall (λ au,
            let r := TagOnly.RegisterMaskFunc au.2 (TagOnly.Direct fn)
                       TagOnly.maskRegistry in
            (f ← r !! au.1; Some (TagOnly.call (S d) r f s)) = Some (fn s))
         groupAliases.
Proof.
  unfold groupAliases.
  repeat apply Forall_cons_2; try apply Forall_nil_2; reflexivity.
Qed.

(** ** The first draft *)

Section DraftFacts.

Lemma Draft_maskField_string (l : loc) (p : path) (i : nat)
    (f : StructField) (s : string) (h : heap) :
  load h l (p ++ [i]) = Some (VString s) →
  exported f = true →
  maskTag f ≠ "" →
  Draft.maskField (RVar l p) (i, f) h
  = SetString (RVar l (p ++ [i])) (Draft.rule (maskTag f) s) h.
Proof.
  intros Hld Hexp Htag.
  assert (Hid : SetString (RVar l (p ++ [i])) s h = Ok h).
  { unfold SetString. by rewrite (store_load_id _ _ _ _ Hld). }
  unfold Draft.maskField, Draft.rule. cbn [fst snd Field CanSet read].
  rewrite bool_decide_eq_false_2, Hexp by assumption. cbn [negb orb].
  rewrite Hld, bind_Ok.
  assert (Hfull : ∀ (s1 : string) (h1 : heap),
             String.length s1 = String.length s →
             store h l (p ++ [i]) (VString s1) = Some h1 →
             (cur ← match load h1 l (p ++ [i]) with
                    | Some v => Ok v
                    | None => Err BadStore
                    end;
              match cur with
              | VString str =>
                  if Contains (maskTag f) "strategy:full" then
                    masked ← Repeat "*" (len str);
                    SetString (RVar l (p ++ [i])) masked h1
                  else Ok h1
              | _ => Ok h1
              end)
             = if Contains (maskTag f) "strategy:full"
               then SetString (RVar l (p ++ [i])) (rule_full s) h
               else Ok h1).
  { intros s1 h1 Hlen Hst. rewrite (load_store _ _ _ _ _ Hst), bind_Ok.
    destruct (Contains (maskTag f) "strategy:full"); [|reflexivity].
    rewrite Repeat_len, bind_Ok. unfold SetString, rule_full.
    by rewrite (store_store _ _ _ _ _ _ Hst), Hlen. }
  destruct (Contains (maskTag f) "strategy:partial") eqn:Hpartial.
  - destruct (Nat.ltb_spec 4 (String.length s)) as [Hn|Hn].
    + rewrite bool_decide_eq_true_2 by (unfold len; lia).
      pose proof (mask_partial_rule s) as Hrule. unfold mask_partial in Hrule.
      rewrite bool_decide_eq_true_2 in Hrule by (unfold len; lia).
      destruct (slice s 0 2) as [a|e]; [|discriminate Hrule].
      rewrite ?bind_Ok in Hrule; rewrite ?bind_Ok.
      destruct (Repeat "*" (len s - 4)) as [m|e]; [|discriminate Hrule].
      rewrite ?bind_Ok in Hrule; rewrite ?bind_Ok.
      destruct (slice s (len s - 2) (len s)) as [b|e]; [|discriminate Hrule].
      rewrite ?bind_Ok in Hrule; rewrite ?bind_Ok. injection Hrule as ->.
      destruct (store_is_Some h l (p ++ [i]) _ (VString (rule_partial s)) Hld)
        as [h1 Hst].
      assert (Hset : SetString (RVar l (p ++ [i])) (rule_partial s) h = Ok h1)
        by (unfold SetString; by rewrite Hst).
      rewrite Hset, bind_Ok.
      rewrite (Hfull _ _ (length_rule_partial s) Hst). cbn [andb].
      destruct (Contains (maskTag f) "strategy:full"); [reflexivity|].
      by rewrite Hset.
    + rewrite bool_decide_eq_false_2 by (unfold len; lia).
      rewrite bind_Ok. cbn [read andb].
      rewrite (Hfull s h eq_refl (store_load_id _ _ _ _ Hld)).
      by destruct (Contains (maskTag f) "strategy:full").
  - rewrite bind_Ok. cbn [read andb].
    rewrite (Hfull s h eq_refl (store_load_id _ _ _ _ Hld)).
    by destruct (Contains (maskTag f) "strategy:full").
Qed.

End DraftFacts.

(** X11.  The draft [Mask] of masker.go, on a settable string field with a
    non-empty tag: the field ends up all asterisks when the tag contains
    [strategy:full] (also when it contains [strategy:partial] as well);
    otherwise, when the tag contains [strategy:partial], a string longer
    than 4 bytes keeps its first and last 2 bytes and a shorter one is left
    as it is (the registered partial strategy masks it whole); otherwise
    the field is unchanged.  The length is kept in every case. *)
Theorem Draft_field_rule (l : loc) (p : path) (i : nat) (f : StructField)
    (s : string) (h : heap) :
  load h l (p ++ [i]) = Some (VString s) →
  exported f = true →
  maskTag f ≠ "" →
  Draft.maskField (RVar l p) (i, f) h
  = SetString (RVar l (p ++ [i])) (Draft.rule (maskTag f) s) h
  ∧ String.length (Draft.rule (maskTag f) s) = String.length s.
Proof.
  intros Hld Hexp Htag. split; [by apply Draft_maskField_string|].
  unfold Draft.rule.
  destruct (Contains (maskTag f) "strategy:full"); [apply length_rule_full|].
  destruct (Contains (maskTag f) "strategy:partial" && _);
    [apply length_rule_partial|reflexivity].
Qed.

Lemma Draft_field_rule_witness :
  let f := exportedField "Code" "group:PII;strategy:partial" in
  let h := [VStruct [(f, VString "abcd")]] in
  load h 0 ([] ++ [0%nat]) = Some (VString "abcd")
  ∧ exported f = true
  ∧ maskTag f ≠ ""
  ∧ Draft.maskField (RVar 0 []) (0%nat, f) h = Ok h
  ∧ Mask maskRegistry 2 (Some (addr 0)) h = Ok [VStruct [(f, VString "****")]].
Proof.
  intros f h.
  assert (Hld : load h 0 ([] ++ [0%nat]) = Some (VString "abcd")) by reflexivity.
  assert (Htag : maskTag f ≠ "") by discriminate.
  split; [exact Hld|]. split; [reflexivity|]. split; [exact Htag|].
  split; [|reflexivity].
  rewrite (proj1 (Draft_field_rule 0 [] 0 f "abcd" h Hld eq_refl Htag)).
  reflexivity.
Defined.

(** X12.  The draft [Mask] panics on a nil interface, on a nil pointer,
    on a string, on a scalar and on a pointer to a string, where the
    engine's [Mask] returns and changes nothing. *)
Theorem Draft_panics_where_engine_returns (reg : Registry) (n : nat)
    (h : heap) :
  (Draft.Mask None h = Err GoPanic ∧ Mask reg (S n) None h = Ok h)
  ∧ (Draft.Mask (Some (VPtr None)) h = Err GoPanic
     ∧ Mask reg (S n) (Some (VPtr None)) h = Ok h)
  ∧ (∀ s, Draft.Mask (Some (VString s)) h = Err GoPanic
          ∧ Mask reg (S n) (Some (VString s)) h = Ok h)
  ∧ (∀ z, Draft.Mask (Some (VScalar z)) h = Err GoPanic
          ∧ Mask reg (S n) (Some (VScalar z)) h = Ok h)
  ∧ (∀ l p s, load h l p = Some (VString s) →
              Draft.Mask (Some (VPtr (Some (l, p)))) h = Err GoPanic
              ∧ Mask reg (S n) (Some (VPtr (Some (l, p)))) h = Ok h).
Proof.
  split; [by split|]. split; [by split|].
  split; [by intros s|]. split; [by intros z|].
  intros l p s Hld. split.
  - unfold Draft.Mask. cbn [Draft.Elem IsValid negb read]. by rewrite Hld.
  - unfold Mask. cbn [maskValue ValueOf IsValid negb read indirect].
    rewrite bind_Ok. unfold indirect, read. by rewrite Hld.
Qed.

Lemma Draft_panics_where_engine_returns_witness :
  load [VString "John"] 0 [] = Some (VString "John")
  ∧ Draft.Mask (Some (addr 0)) [VString "John"] = Err GoPanic
  ∧ Mask maskRegistry 1 (Some (addr 0)) [VString "John"] = Ok [VString "John"].
Proof.
  assert (Hld : load [VString "John"] 0 [] = Some (VString "John"))
    by reflexivity.
  split; [exact Hld|].
  exact (proj2 (proj2 (proj2 (proj2
           (Draft_panics_where_engine_returns maskRegistry 0 [VString "John"]))))
           0%nat [] "John" Hld).
Defined.

(** ** Cycles *)

Section Cycles.

Variable reg : Registry.
Variable overrides : MaskOverrides.

(** The struct at [l] whose first field is an exported pointer to that
    very struct, not switched off by a [none] override. *)
Lemma maskValue_self_pointer (l : loc) (f : StructField)
    (fs : list (StructField * gval)) (h : heap) :
  load h l [] = Some (VStruct ((f, VPtr (Some (l, []))) :: fs)) →
  exported f = true →
  overrides !! Name f ≠ Some "none" →
  ∀ fuel,
    maskValue reg fuel overrides (RVar l []) h = Err OutOfFuel
    ∧ maskValue reg fuel overrides (RVar l [0%nat]) h = Err OutOfFuel.
Proof.
  intros Hld Hexp Hov.
  assert (Hld0 : load h l [0%nat] = Some (VPtr (Some (l, [])))).
  { unfold load in *. destruct (h !! l) as [c|]; [|discriminate].
    cbn in *. by injection Hld as ->. }
  assert (Hkind : ∀ n,
             maskValue reg n overrides (RVar l [0%nat]) h = Err OutOfFuel →
             maskKind reg overrides (maskValue reg n overrides) (RVar l [])
               (VStruct ((f, VPtr (Some (l, []))) :: fs)) h = Err OutOfFuel).
  { intros n Hrec. unfold maskKind.
    change (enumerateFrom 0 ((f, VPtr (Some (l, []))) :: fs).*1)
      with ((0%nat, f) :: enumerateFrom 1 fs.*1).
    rewrite foldM_cons.
    assert (Hstep : maskField reg overrides (maskValue reg n overrides)
                      (RVar l []) (0%nat, f) h = Err OutOfFuel).
    { unfold maskField. cbn [fst snd Field CanSet read app].
      rewrite Hexp, Hld0. cbn [negb]. rewrite bind_Ok.
      assert (Hdef : tagDefault reg (maskValue reg n overrides) f
                       (RVar l [0%nat]) (VPtr (Some (l, []))) h
                     = Err OutOfFuel).
      { unfold tagDefault. cbn [isString]. by rewrite andb_false_r. }
      destruct (overrides !! Name f) as [strategy|]; [|exact Hdef].
      case_bool_decide; [by subst strategy|].
      destruct (reg !! strategy); exact Hdef. }
    by rewrite Hstep. }
  induction fuel as [|n [IH IH0]]; [by split|].
  split; cbn [maskValue IsValid negb read].
  - rewrite Hld, bind_Ok. cbn [indirect read]. rewrite Hld, bind_Ok.
    by apply Hkind.
  - rewrite Hld0, bind_Ok. cbn [indirect read]. rewrite Hld, bind_Ok.
    by apply Hkind.
Qed.

End Cycles.

(** X13.  [maskValue] has no guard against cycles: on a pointer to a struct
    whose first field is an exported pointer back to that struct, whatever
    its tag, the recursion does not end unless an override sets that field
    to [none]; no amount of fuel makes the call return. *)
Theorem Mask_diverges_on_self_pointer (reg : Registry)
    (overrides : MaskOverrides) (l : loc) (f : StructField)
    (fs : list (StructField * gval)) (h : heap) (fuel : nat) :
  load h l [] = Some (VStruct ((f, VPtr (Some (l, []))) :: fs)) →
  exported f = true →
  overrides !! Name f ≠ Some "none" →
  MaskWithOverrides reg fuel (Some (VPtr (Some (l, [])))) overrides h
  = Err OutOfFuel.
Proof.
  intros Hld Hexp Hov.
  destruct (maskValue_self_pointer reg overrides l f fs h Hld Hexp Hov fuel)
    as [Hrun _].
  destruct fuel as [|n]; [reflexivity|].
  unfold MaskWithOverrides.
  cbn [maskValue ValueOf IsValid negb read] in Hrun |- *.
  rewrite bind_Ok. rewrite Hld, bind_Ok in Hrun. exact Hrun.
Qed.

Lemma Mask_diverges_on_self_pointer_witness :
  let f := exportedField "Next" "" in
  let h := [VStruct [(f, addr 0); (exportedField "Name" "strategy:full", VString "a")]] in
  load h 0 [] = Some (VStruct [(f, VPtr (Some (0%nat, [])));
                               (exportedField "Name" "strategy:full", VString "a")])
  ∧ exported f = true
  ∧ (∅ : MaskOverrides) !! Name f ≠ Some "none"
  ∧ MaskWithOverrides maskRegistry 1000 (Some (VPtr (Some (0%nat, [])))) ∅ h
    = Err OutOfFuel.
Proof.
  intros f h.
  assert (Hld : load h 0 [] = Some (VStruct [(f, VPtr (Some (0%nat, [])));
                  (exportedField "Name" "strategy:full", VString "a")]))
    by reflexivity.
  assert (Hov : (∅ : MaskOverrides) !! Name f ≠ Some "none")
    by (rewrite lookup_empty; discriminate).
  split; [exact Hld|]. split; [reflexivity|]. split; [exact Hov|].
  exact (Mask_diverges_on_self_pointer maskRegistry ∅ 0 f _ h 1000
           Hld eq_refl Hov).
Defined.

(** ** Registrations *)

(** X14.  [RegisterMaskFunc] overwrites: after any run of registrations a
    name resolves to the function of its last registration in the run, and
    a name the run does not register resolves as before. *)
Theorem last_registration_wins (regs : list (string * MaskFunc))
    (r : Registry) (name : string) :
  registerAll regs r !! name
  = match last (filter (λ nf, nf.1 = name) regs) with
    | Some nf => Some nf.2
    | None => r !! name
    end.
Proof.
  unfold registerAll. revert r.
  induction regs as [|[n f] regs IH]; intros r; [reflexivity|].
  cbn [foldl fst snd]. rewrite IH. unfold RegisterMaskFunc.
  rewrite filter_cons. cbn [fst].
  destruct (decide (n = name)) as [->|Hne].
  - destruct (filter _ regs) as [|nf l] eqn:Hfilter.
    + cbn. by rewrite lookup_insert_eq.
    + rewrite last_cons_cons.
      destruct (last (nf :: l)) eqn:Hlast; [reflexivity|].
      by apply last_None in Hlast.
  - destruct (last (filter _ regs)); [reflexivity|].
    by rewrite lookup_insert_ne.
Qed.

(** ** The draft touches one variable *)

Section DraftLocality.

Lemma store_other (h h' : heap) (l l' : loc) (q : path) (w : gval) :
  store h l q w = Some h' → l' ≠ l → h' !! l' = h !! l'.
Proof.
  unfold store, loc in *. intros Hst Hne.
  destruct (h !! l) as [c|]; [|discriminate]. cbn in Hst.
  destruct (upd c q w) as [c'|]; [|discriminate]. injection Hst as <-.
  by rewrite list_lookup_insert_ne.
Qed.

Lemma SetString_other (value : rvalue) (s : string) (h h' : heap)
    (l l' : loc) (q : path) :
  value = RVar l q → SetString value s h = Ok h' → l' ≠ l →
  h' !! l' = h !! l'.
Proof.
  intros -> Hset Hne. unfold SetString in Hset.
  destruct (store h l q (VString s)) as [h1|] eqn:Hst; [|discriminate].
  injection Hset as <-. by eapply store_other.
Qed.

Lemma Draft_maskField_other (l l' : loc) (p : path)
    (fld : nat * StructField) (h h' : heap) :
  Draft.maskField (RVar l p) fld h = Ok h' → l' ≠ l → h' !! l' = h !! l'.
Proof.
  unfold Draft.maskField. cbn [Field]. intros Hrun Hne.
  destruct (bool_decide (maskTag fld.2 = "") || _);
    [by injection Hrun as <-|].
  assert (Hfirst : ∀ h1,
             (cur ← read h (RVar l (p ++ [fld.1]));
              match cur with
              | VString str =>
                  if Contains (maskTag fld.2) "strategy:partial" then
                    if bool_decide (len str > 4) then
                      a ← slice str 0 2;
                      m ← Repeat "*" (len str - 4);
                      b ← slice str (len str - 2) (len str);
                      SetString (RVar l (p ++ [fld.1])) (a +:+ m +:+ b) h
                    else Ok h
                  else Ok h
              | _ => Ok h
              end) = Ok h1 → h1 !! l' = h !! l').
  { intros h1.
    destruct (read h _) as [cur|e]; [|discriminate]. rewrite bind_Ok.
    destruct cur; try (intros ?; by simplify_eq).
    destruct (Contains (maskTag fld.2) "strategy:partial");
      [|intros ?; by simplify_eq].
    case_bool_decide; [|intros ?; by simplify_eq].
    destruct (slice s 0 2); [|discriminate]. rewrite bind_Ok.
    destruct (Repeat _ _); [|discriminate]. rewrite bind_Ok.
    destruct (slice s _ _); [|discriminate]. rewrite bind_Ok.
    intros Hset. by eapply SetString_other. }
  match type of Hrun with
  | (?first ≫= _) = _ => destruct first as [h1|e] eqn:H1; [|discriminate]
  end.
  rewrite bind_Ok in Hrun. rewrite <- (Hfirst h1 eq_refl).
  destruct (read h1 _) as [cur|e]; [|discriminate]. rewrite bind_Ok in Hrun.
  destruct cur; try (by simplify_eq).
  destruct (Contains (maskTag fld.2) "strategy:full"); [|by simplify_eq].
  destruct (Repeat _ _); [|discriminate]. rewrite bind_Ok in Hrun.
  by eapply SetString_other.
Qed.

End DraftLocality.

(** X15.  The draft [Mask] does not traverse: given a pointer, it changes
    no variable other than the one pointed to (whatever that variable's
    fields point to stays as it is); given a struct by value, it changes
    nothing at all. *)
Theorem Draft_touches_one_variable (h h' : heap) (l : loc) (p : path) :
  (Draft.Mask (Some (VPtr (Some (l, p)))) h = Ok h' →
   ∀ l', l' ≠ l → h' !! l' = h !! l')
  ∧ ∀ fs, Draft.Mask (Some (VStruct fs)) h = Ok h.
Proof.
  split.
  - unfold Draft.Mask. cbn [Draft.Elem IsValid negb]. intros Hrun l' Hne.
    destruct (read h (RVar l p)) as [cur|e]; [|discriminate].
    rewrite bind_Ok in Hrun. destruct cur; try discriminate.
    revert Hrun.
    apply (foldM_inv (λ h1, h1 !! l' = h !! l')); [|reflexivity].
    intros fld h1 h2 _ Hh1 Hstep. rewrite <- Hh1.
    by eapply Draft_maskField_other.
  - intros fs. unfold Draft.Mask. cbn [IsValid negb read]. rewrite bind_Ok.
    apply foldM_skip. intros fld _. unfold Draft.maskField, Field.
    destruct (sub (VStruct fs) [fld.1]); cbn [CanSet negb];
      by rewrite orb_true_r.
Qed.

Lemma Draft_touches_one_variable_witness :
  let h := [parentT "Ann" 1; innerT "hunter2"] in
  Draft.Mask (Some (VPtr (Some (0%nat, [])))) h
    = Ok [parentT "***" 1; innerT "hunter2"]
  ∧ [parentT "***" 1; innerT "hunter2"] !! 1%nat = h !! 1%nat.
Proof.
  intros h.
  assert (Hrun : Draft.Mask (Some (VPtr (Some (0%nat, [])))) h
                 = Ok [parentT "***" 1; innerT "hunter2"]) by reflexivity.
  split; [exact Hrun|].
  refine (proj1 (Draft_touches_one_variable h _ 0 []) Hrun 1%nat _).
  discriminate.
Defined.
